(** * SASA payment-notification backend: a shallow embedding

    The development follows the server module of the repository: the Express
    application with its in-memory store, the server-sent-event broadcaster,
    the payments routes and the Apple Pay merchant-validation proxy.

    Each route handler is a function in a small state-and-exception monad
    over the server's state; a call that awaits a promise which never
    settles stays suspended.  Values of the JavaScript runtime are modelled
    as the handlers use them.  What the runtime and the libraries compute
    outside the repository is a parameter of the model: the string-to-number
    conversion and the JSON codec ([Runtime]), the verdict of a Joi schema
    (an input of the handler), the clock (an input of the handler), the file
    system, the outbound HTTP call and the transport under a response stream
    ([world]).  The middleware in front of the handlers (security headers,
    CORS, body parser, logger, rate limiter) and the response head of a
    stream are outside the model: the statements are about a handler once it
    is invoked. *)

From Stdlib Require Import ZArith QArith Ascii String Sorting.Sorted Permutation.
From stdpp Require Import gmap strings list pretty.

Local Open Scope Z_scope.

(** ** JavaScript numbers

    A finite double is over-approximated by a rational; the three special
    values are kept apart. *)

Inductive number : Type :=
  | NaN
  | PosInf
  | NegInf
  | Finite (q : Q).

Definition of_Z (z : Z) : number := Finite (inject_Z z).

(** Every integer up to 2^53 in magnitude is a double; the doubles end
    below 2^1024. *)
Definition two_53 : Z := 9007199254740992.
Definition two_1024 : Z := Z.shiftl 1 1024.

(** The integer-valued double nearest to an integer, ties going to the even
    significand: the integer itself up to 2^53 in magnitude, and beyond it
    the 53 leading bits, rounded.  A result of magnitude 2^1024 or more
    stands for an overflow. *)
Definition nearest_double (z : Z) : Z :=
  let a := Z.abs z in
  if a <=? two_53 then z
  else
    let e := Z.log2 a - 52 in
    let q := Z.shiftr a e in
    let r := a - Z.shiftl q e in
    let half := Z.shiftl 1 (e - 1) in
    let q' := if (r <? half) || ((r =? half) && Z.even q) then q else q + 1 in
    Z.sgn z * Z.shiftl q' e.

Definition overflows (d : Z) : bool := two_1024 <=? Z.abs d.

(** The Number value of a mathematical integer. *)
Definition Number_of_integer (z : Z) : number :=
  let d := nearest_double z in
  if overflows d then (if d <? 0 then NegInf else PosInf) else Finite (inject_Z d).

(** [Math.min(a, b)]: NaN is contagious. *)
Definition Math_min (a b : number) : number :=
  match a, b with
  | NaN, _ | _, NaN => NaN
  | NegInf, _ | _, NegInf => NegInf
  | PosInf, y => y
  | x, PosInf => x
  | Finite p, Finite q => if Qle_bool p q then Finite p else Finite q
  end.

(** The result of the abstract operation ToIntegerOrInfinity. *)
Inductive integer_or_infinity : Type :=
  | Int (z : Z)
  | PlusInfinity
  | MinusInfinity.

(** Truncation of a rational toward zero. *)
Definition Qtrunc (q : Q) : Z := Z.quot (Qnum q) (Z.pos (Qden q)).

Definition ToIntegerOrInfinity (n : number) : integer_or_infinity :=
  match n with
  | NaN => Int 0
  | PosInf => PlusInfinity
  | NegInf => MinusInfinity
  | Finite q => Int (Qtrunc q)
  end.

(** ** Arrays

    An array's contents are a list.  [Array.prototype.slice] resolves each
    of its two arguments against the length: a negative index counts from
    the end, and both are clamped to [0, len]. *)

Definition relative_index (i : integer_or_infinity) (len : Z) : Z :=
  match i with
  | MinusInfinity => 0
  | PlusInfinity => len
  | Int z => if z <? 0 then Z.max (len + z) 0 else Z.min z len
  end.

Definition Array_slice {A} (l : list A) (start stop : number) : list A :=
  let len := Z.of_nat (length l) in
  let k := relative_index (ToIntegerOrInfinity start) len in
  let final := relative_index (ToIntegerOrInfinity stop) len in
  take (Z.to_nat (Z.max (final - k) 0)) (drop (Z.to_nat k) l).

(** [Array.prototype.sort(comparefn)].  The language fixes the result for a
    consistent comparator: the stable ordering, in which [x] stays before
    [y] unless [comparefn(x, y) > 0] forces it behind.  An insertion sort
    from the right end computes it. *)

Section Sort.
Context {A : Type} (comparefn : A → A → Z).

Fixpoint sort_insert (x : A) (l : list A) : list A :=
  match l with
  | [] => [x]
  | y :: l' =>
      if comparefn x y <=? 0 then x :: y :: l' else y :: sort_insert x l'
  end.

Fixpoint Array_sort (l : list A) : list A :=
  match l with
  | [] => []
  | x :: l' => sort_insert x (Array_sort l')
  end.
End Sort.

(** ** Values

    The values that cross the HTTP boundary are JSON values; a property
    list keeps insertion order. *)

#[local] Unset Elimination Schemes.
Inductive jsval : Type :=
  | JNull
  | JBool (b : bool)
  | JNum (n : number)
  | JStr (s : string)
  | JArr (items : list jsval)
  | JObj (fields : list (string * jsval)).
#[local] Set Elimination Schemes.

(** A possibly undefined value is an [option jsval]: [None] stands for
    [undefined]. *)

Definition number_truthy (n : number) : bool :=
  match n with
  | NaN => false
  | Finite q => negb (Qeq_bool q 0)
  | _ => true
  end.

Definition string_truthy (s : string) : bool :=
  match s with
  | EmptyString => false
  | _ => true
  end.

(** ToBoolean. *)
Definition truthy (v : option jsval) : bool :=
  match v with
  | None => false
  | Some JNull => false
  | Some (JBool b) => b
  | Some (JNum n) => number_truthy n
  | Some (JStr s) => string_truthy s
  | Some (JArr _) | Some (JObj _) => true
  end.

Fixpoint assoc {V} (key : string) (fields : list (string * V)) : option V :=
  match fields with
  | [] => None
  | (k, v) :: rest => if String.eqb k key then Some v else assoc key rest
  end.

(** [v?.key]: undefined on undefined and null, the property of an object,
    and undefined for a key that the value does not carry. *)
Definition optional_get (v : option jsval) (key : string) : option jsval :=
  match v with
  | Some (JObj fields) => assoc key fields
  | _ => None
  end.

(** ** The runtime

    The conversions the handlers call and the repository does not define. *)

Class Runtime : Type := {
  (** [Number(s)] for a string [s]. *)
  StringToNumber : string → number;
  (** the empty string converts to zero *)
  StringToNumber_empty : StringToNumber EmptyString = Finite 0;
  (** [JSON.parse]: [None] when it throws a SyntaxError. *)
  JSON_parse : string → option jsval;
  JSON_stringify : jsval → string;
}.

(** ** Control: state and exceptions

    A handler runs against a state and returns, throws, or stays suspended
    at an [await] whose promise never settles; the state reached so far
    survives a throw and a suspension. *)

(** A response stream held open for a viewer, by identity. *)
Definition conn : Type := nat.

Inductive exn : Type :=
  | FileError (path : string)
  | FetchError
  | BodyError
  | SyntaxError
  | RangeError
  | TypeError.

Inductive completion (A : Type) : Type :=
  | Normal (a : A)
  | Throw (e : exn)
  | Suspended.
Arguments Normal {A} a.
Arguments Throw {A} e.
Arguments Suspended {A}.

(** What an [await] meets: the promise is fulfilled, it is rejected, or it
    never settles. *)
Inductive settled (A : Type) : Type :=
  | Fulfilled (a : A)
  | Rejected
  | Never.
Arguments Fulfilled {A} a.
Arguments Rejected {A}.
Arguments Never {A}.

Definition M (S A : Type) : Type := S → completion A * S.

#[export] Instance M_ret {S} : MRet (M S) := λ A a s, (Normal a, s).

#[export] Instance M_bind {S} : MBind (M S) := λ A B f m s,
  match m s with
  | (Normal a, s') => f a s'
  | (Throw e, s') => (Throw e, s')
  | (Suspended, s') => (Suspended, s')
  end.

#[export] Instance M_fmap {S} : FMap (M S) := λ A B g m,
  a ← m; mret (g a).

Definition throw {S A} (e : exn) : M S A := λ s, (Throw e, s).

(** [await p]: a rejection is thrown as [e]. *)
Definition await {S A} (p : settled A) (e : exn) : M S A := λ s,
  match p with
  | Fulfilled a => (Normal a, s)
  | Rejected => (Throw e, s)
  | Never => (Suspended, s)
  end.

Definition try_catch {S A} (m : M S A) (handler : exn → M S A) : M S A := λ s,
  match m s with
  | (Normal a, s') => (Normal a, s')
  | (Throw e, s') => handler e s'
  | (Suspended, s') => (Suspended, s')
  end.

Definition gets {S A} (f : S → A) : M S A := λ s, (Normal (f s), s).
Definition modify {S} (f : S → S) : M S () := λ s, (Normal (), f s).

(** [for (const x of xs) body(x)] *)
Fixpoint for_of {S A} (xs : list A) (body : A → M S ()) : M S () :=
  match xs with
  | [] => mret ()
  | x :: rest => body x;; for_of rest body
  end.

(** ** Responses *)

Definition LF : string := String "010"%char EmptyString.
Definition DQ : string := String "034"%char EmptyString.

Inductive method : Type := QR | ApplePay | BankTransfer.

Definition method_name (m : method) : string :=
  match m with
  | QR => "QR"
  | ApplePay => "Apple Pay"
  | BankTransfer => "Bank Transfer"
  end.

(** An entry of [store.payments]. *)
Record payment : Type := {
  name : string;
  pay_method : method;
  amount : Q;
  ts : Z;
}.

Definition payment_to_js (p : payment) : jsval :=
  JObj [("name", JStr (name p)); ("method", JStr (method_name (pay_method p)));
        ("amount", JNum (Finite (amount p))); ("ts", JNum (of_Z (ts p)))].

(** The object handed to [res.json]. *)
Inductive body : Type :=
  | Errors (errors : list string)       (* { ok: false, errors } *)
  | Error (error : string)              (* { ok: false, error } *)
  | Health (applePayEnabled : bool)     (* { ok: true, applePayEnabled } *)
  | Message (message : string)          (* { ok: true, message } *)
  | Payment (p : payment)               (* { ok: true, payment } *)
  | Payments (ps : list payment)        (* { ok: true, payments } *)
  | Json (v : jsval).                   (* the value itself *)

Definition body_to_js (b : body) : jsval :=
  match b with
  | Errors errors => JObj [("ok", JBool false); ("errors", JArr (map JStr errors))]
  | Error error => JObj [("ok", JBool false); ("error", JStr error)]
  | Health enabled => JObj [("ok", JBool true); ("applePayEnabled", JBool enabled)]
  | Message message => JObj [("ok", JBool true); ("message", JStr message)]
  | Payment p => JObj [("ok", JBool true); ("payment", payment_to_js p)]
  | Payments ps => JObj [("ok", JBool true); ("payments", JArr (map payment_to_js ps))]
  | Json v => v
  end.

Record response : Type := {
  status : Z;
  payload : body;
}.

(** [res.status(code).json(b)], and [res.json(b)] with the default status. *)
Definition res_status_json (code : Z) (b : body) : response :=
  {| status := code; payload := b |}.
Definition res_json (b : body) : response := res_status_json 200 b.

(** [res.status(code).json(b)] for a status that is not a constant of the
    program: a status outside 100..999 is refused with a RangeError before
    anything is sent. *)
Definition res_status {S} (code : Z) (b : body) : M S response :=
  if (100 <=? code) && (code <=? 999) then mret (res_status_json code b)
  else throw RangeError.

(** The statuses whose response goes out with a body: not the interim ones
    (100..199), and not 204, 205 and 304, for which the body handed to
    [res.json] is dropped. *)
Definition has_body (code : Z) : bool :=
  negb ((100 <=? code) && (code <=? 199)) && negb (code =? 204)
  && negb (code =? 205) && negb (code =? 304).

(** What the caller reads off the socket as the body. *)
Definition wire `{Runtime} (r : response) : string :=
  if has_body (status r) then JSON_stringify (body_to_js (payload r))
  else EmptyString.

(** ** The world outside the process

    What the transport under a response stream does with a write, what the
    file system holds, and what the remote end of an outbound call answers. *)

(** [Open]: the chunk goes out.  [Destroyed]: the socket is gone and not yet
    reaped; the chunk is dropped and the call returns false.  A write of a
    string chunk does not throw. *)
Inductive transport : Type := Open | Destroyed.

#[export] Instance transport_eq_dec : EqDecision transport.
Proof. solve_decision. Defined.

(** The answer of the remote end: its status line, and what reading its
    body as text meets. *)
Record upstream : Type := {
  up_status : Z;
  up_text : settled string;
}.

Record world : Type := {
  transport_of : conn → transport;
  (** [fs.readFileSync(path)]: [None] when it throws *)
  readFileSync : string → option string;
  (** [fetch(url, { method: 'POST', body, agent })] for an agent built from
      the certificate; the call sets no timeout, so the promise need not
      settle *)
  fetch : option jsval → string → string → settled upstream;
}.

(** What a handler does to the world outside the process, besides the
    responses and the stream writes: a call of [fs.readFileSync], a call of
    [fetch], with the URL, the body and the certificate it is given, and a
    call of [console.error]. *)
Inductive effect : Type :=
  | ReadFile (path : string)
  | Outbound (url : option jsval) (request_body : string) (cert : string)
  | ConsoleError (e : exn).

(** ** The server's state *)

Record contact : Type := {
  contact_name : string;
  contact_email : string;
  contact_message : string;
  contact_ts : Z;
}.

Record server : Type := {
  (** [store.contacts] and [store.payments] *)
  contacts : list contact;
  payments : list payment;
  (** the Set [sseClients], in insertion order *)
  sseClients : list conn;
  (** the connections whose keep-alive interval is armed *)
  keepAlive : gset conn;
  (** the chunks written to each response stream *)
  sent : gmap conn (list string);
  (** the effects so far, oldest first *)
  effects : list effect;
}.

(** The state a handler runs against: the server, and the arrays the call
    itself allocates. *)
Record frame : Type := {
  srv : server;
  locals : list (list payment);
}.

Definition with_srv (g : server → server) (f : frame) : frame :=
  {| srv := g (srv f); locals := locals f |}.

Definition with_locals (g : list (list payment) → list (list payment)) (f : frame) : frame :=
  {| srv := srv f; locals := g (locals f) |}.

Definition with_contacts (g : list contact → list contact) (s : server) : server :=
  {| contacts := g (contacts s); payments := payments s; sseClients := sseClients s;
     keepAlive := keepAlive s; sent := sent s; effects := effects s |}.

Definition with_payments (g : list payment → list payment) (s : server) : server :=
  {| contacts := contacts s; payments := g (payments s); sseClients := sseClients s;
     keepAlive := keepAlive s; sent := sent s; effects := effects s |}.

Definition with_sseClients (g : list conn → list conn) (s : server) : server :=
  {| contacts := contacts s; payments := payments s; sseClients := g (sseClients s);
     keepAlive := keepAlive s; sent := sent s; effects := effects s |}.

Definition with_keepAlive (g : gset conn → gset conn) (s : server) : server :=
  {| contacts := contacts s; payments := payments s; sseClients := sseClients s;
     keepAlive := g (keepAlive s); sent := sent s; effects := effects s |}.

Definition with_sent (g : gmap conn (list string) → gmap conn (list string)) (s : server) : server :=
  {| contacts := contacts s; payments := payments s; sseClients := sseClients s;
     keepAlive := keepAlive s; sent := g (sent s); effects := effects s |}.

Definition with_effects (g : list effect → list effect) (s : server) : server :=
  {| contacts := contacts s; payments := payments s; sseClients := sseClients s;
     keepAlive := keepAlive s; sent := sent s; effects := g (effects s) |}.

(** A handler call starts with no array of its own, and its arrays die with
    it. *)
Definition handle {A} (h : M frame A) (s : server) : completion A * server :=
  let '(r, f) := h {| srv := s; locals := [] |} in (r, srv f).

(** *** Arrays of payment records

    The store's array has an identity of its own; every other array is
    allocated by the running call. *)

Inductive ref : Type :=
  | store_payments
  | local (i : nat).

Definition array_get (r : ref) : M frame (list payment) := λ f,
  match r with
  | store_payments => (Normal (payments (srv f)), f)
  | local i =>
      match locals f !! i with
      | Some a => (Normal a, f)
      | None => (Throw TypeError, f)
      end
  end.

Definition array_set (r : ref) (a : list payment) : M frame () :=
  match r with
  | store_payments => modify (with_srv (with_payments (λ _, a)))
  | local i => modify (with_locals (λ ls, <[i:=a]> ls))
  end.

Definition array_new (a : list payment) : M frame ref := λ f,
  (Normal (local (length (locals f))), with_locals (λ ls, ls ++ [a]) f).

(** [[...r]] *)
Definition spread (r : ref) : M frame ref :=
  a ← array_get r; array_new a.

(** [r.sort(comparefn)] sorts in place and returns [r]. *)
Definition sort (r : ref) (comparefn : payment → payment → Z) : M frame ref :=
  a ← array_get r; array_set r (Array_sort comparefn a);; mret r.

(** [r.slice(start, stop)] *)
Definition slice (r : ref) (start stop : number) : M frame ref :=
  a ← array_get r; array_new (Array_slice a start stop).

(** [r.push(x)] *)
Definition push (r : ref) (x : payment) : M frame () :=
  a ← array_get r; array_set r (a ++ [x]).

(** *** The Set of open streams *)

(** [set.add(c)] *)
Definition Set_add (c : conn) (set : list conn) : list conn :=
  if decide (c ∈ set) then set else set ++ [c].

(** [set.delete(c)] *)
Definition Set_delete (c : conn) (set : list conn) : list conn :=
  filter (λ c', c' ≠ c) set.

(** ** Route inputs *)

(** A parsed query-string value: a string, or the arrays and objects the
    query parser builds from repeated and bracketed keys. *)
#[local] Unset Elimination Schemes.
Inductive qval : Type :=
  | QStr (s : string)
  | QArr (items : list qval)
  | QObj (fields : list (string * qval)).
#[local] Set Elimination Schemes.

(** ToString: an array joins its items with commas. *)
Fixpoint qval_to_string (v : qval) : string :=
  match v with
  | QStr s => s
  | QArr items => String.concat "," (List.map qval_to_string items)
  | QObj _ => "[object Object]"
  end.

Definition qval_truthy (v : qval) : bool :=
  match v with
  | QStr s => string_truthy s
  | _ => true
  end.

(** The verdict of a Joi schema on a request body: the messages of the
    violations, or the validated value. *)
Inductive validation (V : Type) : Type :=
  | Invalid (messages : list string)
  | Valid (value : V).
Arguments Invalid {V} messages.
Arguments Valid {V} value.

Record payment_fields : Type := {
  fullName : string;
  value_method : method;
  value_amount : Q;
}.

Record contact_fields : Type := {
  value_name : string;
  value_email : string;
  value_message : string;
}.

(** The comparator of the listing: [(a, b) => b.ts - a.ts]. *)
Definition by_ts_desc (a b : payment) : Z := ts b - ts a.

(** ** The server-sent-event broadcaster and the routes *)

Section Routes.
Context `{R : Runtime} (w : world).

(** [Number(v)] for a query value. *)
Definition Number (v : qval) : number := StringToNumber (qval_to_string v).

(** [Number(req.query.limit || 25)] *)
Definition Number_limit_or_25 (limit : option qval) : number :=
  match limit with
  | Some v => if qval_truthy v then Number v else of_Z 25
  | None => of_Z 25
  end.

(** [res.write(chunk)] on a response stream. *)
Definition res_write (res : conn) (chunk : string) : M frame bool := λ f,
  match transport_of w res with
  | Open =>
      (Normal true,
       with_srv (with_sent (λ m, <[res := m !!! res ++ [chunk]]> m)) f)
  | Destroyed => (Normal false, f)
  end.

Definition sse_payload (event : string) (data : jsval) : string :=
  "event: " +:+ event +:+ LF +:+ "data: " +:+ JSON_stringify data +:+ LF +:+ LF.

(** Send an event to all clients. *)
Definition broadcast (event : string) (data : jsval) : M frame () :=
  let payload := sse_payload event data in
  clients ← gets (λ f, sseClients (srv f));
  for_of clients (λ res, res_write res payload;; mret ()).

Definition hello : string :=
  "event: hello" +:+ LF +:+ "data: " +:+ DQ +:+ "connected" +:+ DQ +:+ LF +:+ LF.

Definition ping : string := ": ping" +:+ LF +:+ LF.

(** GET /api/payments/stream: the greeting, the registration in the Set
    and the arming of the keep-alive interval.  The close handler the
    request registers last is [on_close] below. *)
Definition stream (res : conn) : M frame () :=
  res_write res hello;;
  modify (with_srv (with_sseClients (Set_add res)));;
  modify (with_srv (with_keepAlive (λ t, {[res]} ∪ t))).

(** The interval's callback, run by the event loop every 25 seconds for as
    long as the interval is armed. *)
Definition keep_alive (res : conn) : M frame () :=
  armed ← gets (λ f, bool_decide (res ∈ keepAlive (srv f)));
  if armed : bool then res_write res ping;; mret () else mret ().

(** The close handler of a stream request. *)
Definition on_close (res : conn) : M frame () :=
  modify (with_srv (with_keepAlive (λ t, t ∖ {[res]})));;
  modify (with_srv (with_sseClients (Set_delete res))).

(** POST /api/contact *)
Definition post_contact (validated : validation contact_fields) (now : Z)
  : M frame response :=
  match validated with
  | Invalid messages => mret (res_status_json 400 (Errors messages))
  | Valid value =>
      let entry := {| contact_name := value_name value;
                      contact_email := value_email value;
                      contact_message := value_message value;
                      contact_ts := now |} in
      modify (with_srv (with_contacts (λ cs, cs ++ [entry])));;
      mret (res_json (Message "Thanks for reaching out!"))
  end.

(** POST /api/payments *)
Definition post_payments (validated : validation payment_fields) (now : Z)
  : M frame response :=
  match validated with
  | Invalid messages => mret (res_status_json 400 (Errors messages))
  | Valid value =>
      let entry := {| name := fullName value;
                      pay_method := value_method value;
                      amount := value_amount value;
                      ts := now |} in
      push store_payments entry;;
      broadcast "payment" (payment_to_js entry);;
      mret (res_json (Payment entry))
  end.

(** GET /api/payments *)
Definition get_payments (limit_param : option qval) : M frame response :=
  let limit := Math_min (Number_limit_or_25 limit_param) (of_Z 200) in
  copy ← spread store_payments;
  sorted ← sort copy by_ts_desc;
  recent ← slice sorted (of_Z 0) limit;
  ps ← array_get recent;
  mret (res_json (Payments ps)).
End Routes.

(** ** Apple Pay merchant validation *)

(** The variables of [process.env] the server reads: unset, or a string. *)
Record env : Type := {
  APPLE_PAY_ENABLED : option string;
  MERCHANT_ID : option string;
  MERCHANT_DOMAIN : option string;
  MERCHANT_DISPLAY_NAME : option string;
  MERCHANT_CERT_PATH : option string;
}.

(** [process.env.APPLE_PAY_ENABLED === 'true'] *)
Definition APPLE_ENABLED (e : env) : bool :=
  bool_decide (APPLE_PAY_ENABLED e = Some "true").

(** [!v] for an environment variable: unset, or the empty string. *)
Definition not_set (v : option string) : bool :=
  match v with
  | Some s => negb (string_truthy s)
  | None => true
  end.

(** [s || d] for a string [s]. *)
Definition string_or (s d : string) : string :=
  if string_truthy s then s else d.

(** The variable's value, once it is known to be set. *)
Definition the (v : option string) : string := default EmptyString v.

(** The object posted to the validation URL. *)
Definition merchant_payload (e : env) : jsval :=
  JObj [("merchantIdentifier", JStr (the (MERCHANT_ID e)));
        ("displayName", JStr (the (MERCHANT_DISPLAY_NAME e)));
        ("initiative", JStr "web");
        ("initiativeContext", JStr (the (MERCHANT_DOMAIN e)))].

(** Some merchant variable is unset or empty. *)
Definition config_missing (e : env) : bool :=
  not_set (MERCHANT_ID e)
  || not_set (MERCHANT_DOMAIN e)
  || not_set (MERCHANT_DISPLAY_NAME e)
  || not_set (MERCHANT_CERT_PATH e).

Section Validator.
Context `{R : Runtime} (w : world) (process_env : env).

Definition emit (e : effect) : M frame () :=
  modify (with_srv (with_effects (λ l, l ++ [e]))).

Definition fs_readFileSync (path : string) : M frame string :=
  emit (ReadFile path);;
  match readFileSync w path with
  | Some data => mret data
  | None => throw (FileError path)
  end.

Definition node_fetch (url : option jsval) (request_body cert : string)
  : M frame upstream :=
  emit (Outbound url request_body cert);;
  await (fetch w url request_body cert) FetchError.

(** [appleRes.ok]: a status in the range 200 to 299. *)
Definition ok (r : upstream) : bool :=
  (200 <=? up_status r) && (up_status r <? 300).

(** [appleRes.text()] *)
Definition text (r : upstream) : M frame string :=
  await (up_text r) BodyError.

(** [appleRes.json()] *)
Definition json (r : upstream) : M frame jsval :=
  t ← text r;
  match JSON_parse t with
  | Some v => mret v
  | None => throw SyntaxError
  end.

Definition console_error (e : exn) : M frame () := emit (ConsoleError e).

(** GET /api/health *)
Definition health : M frame response :=
  mret (res_json (Health (APPLE_ENABLED process_env))).

(** POST /api/apple-pay/validate-session *)
Definition validate_session (req_body : option jsval) : M frame response :=
  if negb (APPLE_ENABLED process_env) then
    mret (res_status_json 501 (Error "Apple Pay validation disabled on this server."))
  else
    let validationURL := optional_get req_body "validationURL" in
    if negb (truthy validationURL) then
      mret (res_status_json 400 (Error "Missing validationURL"))
    else
      try_catch
        (if config_missing process_env then
           mret (res_status_json 500 (Error "Merchant config missing."))
         else
           cert ← fs_readFileSync (the (MERCHANT_CERT_PATH process_env));
           let payload := merchant_payload process_env in
           appleRes ← node_fetch validationURL (JSON_stringify payload) cert;
           if negb (ok appleRes) then
             t ← text appleRes;
             res_status (up_status appleRes) (Error (string_or t "Apple error"))
           else
             session ← json appleRes;
             mret (res_json (Json session)))
        (λ err,
           console_error err;;
           mret (res_status_json 500 (Error "Validation request failed."))).

(** *** The server as a whole *)

Inductive request : Type :=
  | GET_health
  | POST_contact (validated : validation contact_fields) (now : Z)
  | POST_payments (validated : validation payment_fields) (now : Z)
  | GET_payments (limit : option qval)
  | GET_payments_stream (res : conn)
  | Closed (res : conn)
  | Interval (res : conn)
  | POST_validate_session (req_body : option jsval).

Definition serve (r : request) : M frame (option response) :=
  match r with
  | GET_health => Some <$> health
  | POST_contact validated now => Some <$> post_contact validated now
  | POST_payments validated now => Some <$> post_payments w validated now
  | GET_payments limit => Some <$> get_payments limit
  | GET_payments_stream res => stream w res;; mret None
  | Closed res => on_close res;; mret None
  | Interval res => keep_alive w res;; mret None
  | POST_validate_session req_body => Some <$> validate_session req_body
  end.

Definition step (r : request) (s : server) : server := (handle (serve r) s).2.
End Validator.

(** ** A runtime for closed examples

    An executable instance of [Runtime] on a fragment of its inputs.

    The number conversion reads, between blanks, a decimal integer literal
    with an optional sign, or an infinity; it gives the nearest double, and
    an infinity on overflow.

    The JSON codec reads and writes documents built from null, the booleans,
    integer literals, strings with the two-character escapes, arrays and
    objects.  An integer literal denotes the nearest double.  An object
    lists its array-index keys first, in ascending order, and then its other
    keys in the order of the document; a key that occurs again keeps its
    place and takes the later value.  An integer is written with the fewest
    digits that denote it, in exponent form from 10^21 on.

    Outside that fragment (fractions, exponents, hexadecimal literals,
    unicode escapes, numbers that are not integers) the instance is not
    meant to agree with the language.  The theorems below hold for every
    instance and use this one only to evaluate the handlers on concrete
    requests. *)

Definition is_digit (a : ascii) : bool :=
  let n := nat_of_ascii a in (48 <=? n)%nat && (n <=? 57)%nat.

Definition digit_value (a : ascii) : Z := Z.of_nat (nat_of_ascii a) - 48.

(** The value of a string of digits, read after the digits of [acc]. *)
Fixpoint digits_value (acc : Z) (s : string) : option Z :=
  match s with
  | EmptyString => Some acc
  | String a s' =>
      if is_digit a then digits_value (10 * acc + digit_value a) s' else None
  end.

Definition unsigned_literal (s : string) : number :=
  if String.eqb s "Infinity" then PosInf
  else match s with
       | EmptyString => NaN
       | _ => from_option Number_of_integer NaN (digits_value 0 s)
       end.

Definition negate (n : number) : number :=
  match n with
  | NaN => NaN
  | PosInf => NegInf
  | NegInf => PosInf
  | Finite q => Finite (- q)
  end.

(** The blanks the number conversion strips: space, and the controls from
    tab to carriage return. *)
Definition is_str_ws (a : ascii) : bool :=
  let n := nat_of_ascii a in
  (n =? 32)%nat || ((9 <=? n)%nat && (n <=? 13)%nat).

Fixpoint trim_start (s : string) : string :=
  match s with
  | String a s' => if is_str_ws a then trim_start s' else s
  | EmptyString => s
  end.

Fixpoint trim_end (s : string) : string :=
  match s with
  | EmptyString => EmptyString
  | String a s' =>
      match trim_end s' with
      | EmptyString => if is_str_ws a then EmptyString else String a EmptyString
      | rest => String a rest
      end
  end.

Definition example_StringToNumber (s : string) : number :=
  match trim_end (trim_start s) with
  | EmptyString => Finite 0
  | String "-" s' => negate (unsigned_literal s')
  | String "+" s' => unsigned_literal s'
  | t => unsigned_literal t
  end.

Definition is_ws (a : ascii) : bool :=
  let n := nat_of_ascii a in
  (n =? 32)%nat || (n =? 9)%nat || (n =? 10)%nat || (n =? 13)%nat.

Fixpoint skip_ws (s : string) : string :=
  match s with
  | String a s' => if is_ws a then skip_ws s' else s
  | EmptyString => s
  end.

(** [s] without the prefix [p], when it starts with it. *)
Fixpoint strip_prefix (p s : string) : option string :=
  match p, s with
  | EmptyString, _ => Some s
  | String a p', String b s' => if Ascii.eqb a b then strip_prefix p' s' else None
  | String _ _, EmptyString => None
  end.

Definition unescape (a : ascii) : option ascii :=
  match a with
  | "034" | "\" | "/" => Some a
  | "b" => Some "008"
  | "f" => Some "012"
  | "n" => Some "010"
  | "r" => Some "013"
  | "t" => Some "009"
  | _ => None
  end%char.

(** The characters of a string literal after its opening quote, and what
    follows the closing quote. *)
Fixpoint parse_chars (s : string) : option (string * string) :=
  match s with
  | EmptyString => None
  | String a s' =>
      if Ascii.eqb a "034" then Some (EmptyString, s')
      else if Ascii.eqb a "\" then
        match s' with
        | String e s'' =>
            c ← unescape e;
            '(cs, rest) ← parse_chars s'';
            Some (String c cs, rest)
        | EmptyString => None
        end
      else if (nat_of_ascii a <? 32)%nat then None
      else '(cs, rest) ← parse_chars s'; Some (String a cs, rest)
  end.

(** The longest prefix of digits, and the rest. *)
Fixpoint span_digits (s : string) : string * string :=
  match s with
  | String a s' =>
      if is_digit a then let '(ds, rest) := span_digits s' in (String a ds, rest)
      else (EmptyString, s)
  | EmptyString => (EmptyString, s)
  end.

Definition starts_fraction_or_exponent (s : string) : bool :=
  match s with
  | String a _ => Ascii.eqb a "." || Ascii.eqb a "e" || Ascii.eqb a "E"
  | EmptyString => false
  end.

(** An integer literal: no leading zero, no fraction, no exponent. *)
Definition parse_int (s : string) : option (Z * string) :=
  let '(ds, rest) := span_digits s in
  match ds with
  | EmptyString => None
  | String "0" (String _ _) => None
  | _ =>
      if starts_fraction_or_exponent rest then None
      else z ← digits_value 0 ds; Some (z, rest)
  end.

(** The array index a property key denotes, if any: the canonical decimal
    form of an integer below 2^32 - 1. *)
Definition array_index (k : string) : option Z :=
  match k with
  | EmptyString => None
  | String "0" (String _ _) => None
  | _ => z ← digits_value 0 k; if z <? 4294967295 then Some z else None
  end.

Fixpoint replace_property (k : string) (v : jsval) (fields : list (string * jsval))
  : list (string * jsval) :=
  match fields with
  | [] => []
  | (k', v') :: rest =>
      if String.eqb k' k then (k', v) :: rest
      else (k', v') :: replace_property k v rest
  end.

(** The place of a new array-index key: after the smaller indices, before
    the larger ones and before every other key. *)
Fixpoint insert_index (i : Z) (k : string) (v : jsval) (fields : list (string * jsval))
  : list (string * jsval) :=
  match fields with
  | [] => [(k, v)]
  | (k', v') :: rest =>
      match array_index k' with
      | Some j => if j <? i then (k', v') :: insert_index i k v rest
                  else (k, v) :: fields
      | None => (k, v) :: fields
      end
  end.

(** Defining a property again keeps its place and takes the new value; a
    new property goes to its place among the array indices, or to the end. *)
Definition define_property (k : string) (v : jsval) (fields : list (string * jsval))
  : list (string * jsval) :=
  match assoc k fields with
  | Some _ => replace_property k v fields
  | None =>
      match array_index k with
      | Some i => insert_index i k v fields
      | None => fields ++ [(k, v)]
      end
  end.

Fixpoint parse_value (fuel : nat) (s : string) : option (jsval * string) :=
  match fuel with
  | O => None
  | S fuel =>
      match skip_ws s with
      | String "034" s' => '(cs, rest) ← parse_chars s'; Some (JStr cs, rest)
      | String "[" s' =>
          match skip_ws s' with
          | String "]" rest => Some (JArr [], rest)
          | _ => parse_elements fuel [] s'
          end
      | String "{" s' =>
          match skip_ws s' with
          | String "}" rest => Some (JObj [], rest)
          | _ => parse_members fuel [] s'
          end
      | String "-" s' =>
          '(z, rest) ← parse_int s'; Some (JNum (Number_of_integer (- z)), rest)
      | s0 =>
          match strip_prefix "null" s0, strip_prefix "true" s0, strip_prefix "false" s0 with
          | Some rest, _, _ => Some (JNull, rest)
          | _, Some rest, _ => Some (JBool true, rest)
          | _, _, Some rest => Some (JBool false, rest)
          | _, _, _ => '(z, rest) ← parse_int s0; Some (JNum (Number_of_integer z), rest)
          end
      end
  end
with parse_elements (fuel : nat) (acc : list jsval) (s : string)
  : option (jsval * string) :=
  match fuel with
  | O => None
  | S fuel =>
      '(v, rest) ← parse_value fuel s;
      match skip_ws rest with
      | String "," rest' => parse_elements fuel (acc ++ [v]) rest'
      | String "]" rest' => Some (JArr (acc ++ [v]), rest')
      | _ => None
      end
  end
with parse_members (fuel : nat) (acc : list (string * jsval)) (s : string)
  : option (jsval * string) :=
  match fuel with
  | O => None
  | S fuel =>
      match skip_ws s with
      | String "034" s' =>
          '(k, rest) ← parse_chars s';
          match skip_ws rest with
          | String ":" rest' =>
              '(v, rest'') ← parse_value fuel rest';
              match skip_ws rest'' with
              | String "," rest3 => parse_members fuel (define_property k v acc) rest3
              | String "}" rest3 => Some (JObj (define_property k v acc), rest3)
              | _ => None
              end
          | _ => None
          end
      | _ => None
      end
  end.

Definition example_JSON_parse (s : string) : option jsval :=
  '(v, rest) ← parse_value (S (String.length s)) s;
  match skip_ws rest with
  | EmptyString => Some v
  | _ => None
  end.

Definition hex_digit (n : nat) : ascii :=
  ascii_of_nat (if (n <? 10)%nat then 48 + n else 87 + n).

Definition escape_char (a : ascii) : string :=
  let n := nat_of_ascii a in
  if (n =? 34)%nat then String "\" DQ
  else if (n =? 92)%nat then "\\"
  else if (n =? 8)%nat then "\b"
  else if (n =? 12)%nat then "\f"
  else if (n =? 10)%nat then "\n"
  else if (n =? 13)%nat then "\r"
  else if (n =? 9)%nat then "\t"
  else if (n <? 32)%nat then
    "\u00" +:+ String (hex_digit (n / 16)) (String (hex_digit (n mod 16)) EmptyString)
  else String a EmptyString.

Fixpoint escape (s : string) : string :=
  match s with
  | EmptyString => EmptyString
  | String a s' => escape_char a +:+ escape s'
  end.

Definition quote (s : string) : string := DQ +:+ escape s +:+ DQ.

(** The digits [s], their count [k] and the position [n] of the decimal
    point that the number-to-string conversion picks for a positive
    integer-valued double [x]: the fewest digits whose value
    [s * 10^(n - k)] still denotes [x], and among those the value nearest to
    [x], the even [s] on a tie.  The search starts at [k] digits. *)
Fixpoint shortest_digits (fuel : nat) (k n x : Z) : Z * Z * Z :=
  match fuel with
  | O => (x, n, n)
  | S fuel =>
      let p := 10 ^ (n - k) in
      let lo := x / p in
      let hi := lo + 1 in
      let ok_lo := (10 ^ (k - 1) <=? lo) && (nearest_double (lo * p) =? x) in
      let ok_hi := nearest_double (hi * p) =? x in
      let pick_hi := if hi =? 10 ^ k then (1, 1, n + 1) else (hi, k, n) in
      if ok_lo && ok_hi then
        let below := x - lo * p in
        let above := hi * p - x in
        if (below <? above) || ((below =? above) && Z.even lo) then (lo, k, n)
        else pick_hi
      else if ok_lo then (lo, k, n)
      else if ok_hi then pick_hi
      else shortest_digits fuel (k + 1) n x
  end.

Fixpoint zeros (n : nat) : string :=
  match n with
  | O => EmptyString
  | S n => String "0" (zeros n)
  end.

(** The string of an integer-valued double: its digits and zeros up to 21
    places, the exponent form beyond. *)
Definition integer_to_string (d : Z) : string :=
  if d =? 0 then "0"
  else
    let x := Z.abs d in
    let '(s, k, n) := shortest_digits 17 1 (Z.of_nat (String.length (pretty x))) x in
    let digits := pretty s in
    (if d <? 0 then "-" else EmptyString)
    +:+ (if n <=? 21 then digits +:+ zeros (Z.to_nat (n - k))
         else match digits with
              | String a EmptyString => String a EmptyString
              | String a rest => String a ("." +:+ rest)
              | EmptyString => EmptyString
              end +:+ "e+" +:+ pretty (n - 1)).

Definition stringify_number (n : number) : string :=
  match n with
  | Finite q =>
      let q' := Qred q in
      if (Qden q' =? 1)%positive then
        match Number_of_integer (Qnum q') with
        | Finite d => integer_to_string (Qnum d)
        | _ => "null"
        end
      else "null"
  | _ => "null"
  end.

Fixpoint example_JSON_stringify (v : jsval) : string :=
  match v with
  | JNull => "null"
  | JBool true => "true"
  | JBool false => "false"
  | JNum n => stringify_number n
  | JStr s => quote s
  | JArr items =>
      "[" +:+ String.concat "," (List.map example_JSON_stringify items) +:+ "]"
  | JObj fields =>
      "{" +:+ String.concat ","
                (List.map (λ kv, quote kv.1 +:+ ":" +:+ example_JSON_stringify kv.2) fields)
          +:+ "}"
  end.

#[local] Instance example_runtime : Runtime := {|
  StringToNumber := example_StringToNumber;
  StringToNumber_empty := eq_refl;
  JSON_parse := example_JSON_parse;
  JSON_stringify := example_JSON_stringify;
|}.

Definition ok_true : string := "{" +:+ DQ +:+ "ok" +:+ DQ +:+ ":true}".


(** ** The ledger's read, as a function

    What GET /api/payments computes from the store's records and the
    converted limit. *)

Definition recent (limit : number) (records : list payment) : list payment :=
  Array_slice (Array_sort by_ts_desc records) (of_Z 0) (Math_min limit (of_Z 200)).

(** [p] is at least as new as [q]. *)
Definition not_older (p q : payment) : Prop := ts q ≤ ts p.

#[export] Instance not_older_dec (p q : payment) : Decision (not_older p q).
Proof. unfold not_older. apply _. Defined.



(** ** The fan-out, as a function of the Set's order

    The chunks a run of writes leaves on the streams. *)

Definition deliver (w : world) (chunk : string) (clients : list conn)
  (m : gmap conn (list string)) : gmap conn (list string) :=
  foldl (λ m c, match transport_of w c with
                | Open => <[c := m !!! c ++ [chunk]]> m
                | Destroyed => m
                end) m clients.

(** ** The server at load time *)

(** No record, no stream, nothing written or done yet. *)
Definition no_traffic : server :=
  {| contacts := []; payments := []; sseClients := []; keepAlive := ∅;
     sent := ∅; effects := [] |}.

(** The three payments the module puts in the store when it is loaded.
    Each record reads the clock for itself: [now1], [now2] and [now3] are
    the three readings, in the order of the records. *)
Definition seed (now1 now2 now3 : Z) : list payment :=
  [ {| name := "Priya N."; pay_method := QR; amount := 15; ts := now1 - 25 * 60000 |};
    {| name := "Aman S."; pay_method := ApplePay; amount := 15; ts := now2 - 55 * 60000 |};
    {| name := "Neha R."; pay_method := BankTransfer; amount := 20; ts := now3 - 90 * 60000 |} ].

Definition initial (now1 now2 now3 : Z) : server :=
  with_payments (λ _, seed now1 now2 now3) no_traffic.

(** The keep-alive interval is armed for exactly the streams in the Set. *)
Definition registered_armed (s : server) : Prop :=
  ∀ c, c ∈ keepAlive s ↔ c ∈ sseClients s.

(** The states the server gets to from its load with the clock readings
    [now1], [now2] and [now3], whatever the world does between two
    requests. *)
Inductive reachable `{R : Runtime} (now1 now2 now3 : Z) : server → Prop :=
  | reachable_initial : reachable now1 now2 now3 (initial now1 now2 now3)
  | reachable_step (w : world) (e : env) (r : request) (s : server) :
      reachable now1 now2 now3 s → reachable now1 now2 now3 (step w e r s).

(** ** Inputs of the closed examples *)

Definition no_env : env :=
  {| APPLE_PAY_ENABLED := None; MERCHANT_ID := None; MERCHANT_DOMAIN := None;
     MERCHANT_DISPLAY_NAME := None; MERCHANT_CERT_PATH := None |}.

Definition enabled_only : env :=
  {| APPLE_PAY_ENABLED := Some "true"; MERCHANT_ID := None; MERCHANT_DOMAIN := None;
     MERCHANT_DISPLAY_NAME := None; MERCHANT_CERT_PATH := None |}.

Definition merchant_env : env :=
  {| APPLE_PAY_ENABLED := Some "true"; MERCHANT_ID := Some "merchant.org.sasa";
     MERCHANT_DOMAIN := Some "sasa.example"; MERCHANT_DISPLAY_NAME := Some "SASA";
     MERCHANT_CERT_PATH := Some "/etc/sasa/merchant.pem" |}.

(** Every stream open, the certificate on disk, and the outbound call
    meeting [answer]. *)
Definition world_answering (answer : settled upstream) : world :=
  {| transport_of := λ _, Open;
     readFileSync := λ path,
       if String.eqb path "/etc/sasa/merchant.pem" then Some "PEM" else None;
     fetch := λ _ _ _, answer |}.

(** As above, with no remote end to reach: the outbound call rejects. *)
Definition healthy : world := world_answering Rejected.

(** As [healthy], with the write on stream 2 doing [t]. *)
Definition stream_2 (t : transport) : world :=
  {| transport_of := λ c, if decide (c = 2%nat) then t else Open;
     readFileSync := readFileSync healthy;
     fetch := fetch healthy |}.

(** Three viewers have subscribed to a freshly loaded server. *)
Definition three_streams : server :=
  foldl (λ s r, step healthy no_env r s) (initial 0 0 0)
    [GET_payments_stream 1%nat; GET_payments_stream 2%nat; GET_payments_stream 3%nat].

Definition test_value : payment_fields :=
  {| fullName := "Test"; value_method := QR; value_amount := 15 |}.

Definition test_entry (now : Z) : payment :=
  {| name := "Test"; pay_method := QR; amount := 15; ts := now |}.

Definition earlier_value : payment_fields :=
  {| fullName := "Earlier"; value_method := QR; value_amount := 15 |}.

(** A freshly loaded server on which two hundred payments were confirmed
    within the millisecond 1000. *)
Definition busy_millisecond : server :=
  foldl (λ s r, step healthy no_env r s) (initial 1000 1000 1000)
    (replicate 200 (POST_payments (Valid earlier_value) 1000)).


Definition session_request : option jsval :=
  Some (JObj [("validationURL",
               JStr "https://apple-pay-gateway.apple.com/paymentservices/startSession")]).

Definition empty_request : option jsval := Some (JObj []).

(** A request whose validation URL is an empty array: empty, and truthy. *)
Definition empty_array_request : option jsval :=
  Some (JObj [("validationURL", JArr [])]).

(** ** The effects of one validation request *)

(** The effects one validation request can add: nothing; a read that fails;
    a read and a call; a read, a call and the log of what went wrong after
    the call went out. *)
Inductive validation_effects `{R : Runtime} (w : world) (e : env)
    (req_body : option jsval) : list effect → Prop :=
  | effects_none : validation_effects w e req_body []
  | effects_read_failed :
      validation_effects w e req_body
        [ReadFile (the (MERCHANT_CERT_PATH e));
         ConsoleError (FileError (the (MERCHANT_CERT_PATH e)))]
  | effects_called (cert : string) (logged : list effect) :
      readFileSync w (the (MERCHANT_CERT_PATH e)) = Some cert →
      logged = [] ∨ (∃ x, logged = [ConsoleError x]) →
      validation_effects w e req_body
        ([ReadFile (the (MERCHANT_CERT_PATH e));
          Outbound (optional_get req_body "validationURL")
            (JSON_stringify (merchant_payload e)) cert] ++ logged).

(** A converted limit of at least one. *)
Definition at_least_one (limit : number) : Prop :=
  match limit with
  | PosInf => True
  | Finite q => (inject_Z 1 <= q)%Q
  | NaN | NegInf => False
  end.

(** The request gets as far as the outbound call. *)
Definition goes_out (e : env) (req_body : option jsval) : Prop :=
  APPLE_ENABLED e = true
  ∧ truthy (optional_get req_body "validationURL") = true
  ∧ config_missing e = false.

(** The certificate can be read, and the outbound call, or the read of its
    answer's body, never settles. *)
Definition never_settles `{R : Runtime} (w : world) (e : env)
    (req_body : option jsval) : Prop :=
  ∃ cert,
    readFileSync w (the (MERCHANT_CERT_PATH e)) = Some cert
    ∧ (fetch w (optional_get req_body "validationURL")
         (JSON_stringify (merchant_payload e)) cert = Never
       ∨ ∃ up,
           fetch w (optional_get req_body "validationURL")
             (JSON_stringify (merchant_payload e)) cert = Fulfilled up
           ∧ up_text up = Never).

(** ** The gallery lightbox

    The second script of the repository.  The statements that open the
    lightbox on the gallery [items] at [startIndex] close over [set]; their
    handlers are kept in the page with the set they close over.  An index is
    a number as the arithmetic on an integer [startIndex] makes it: an
    integer-valued double, an infinity, or NaN. *)

Record item : Type := {
  url : string;
  title : string;
}.

Inductive index : Type :=
  | At (z : Z)
  | Infinite (negative : bool)
  | NotANumber.

(** The Number value of a mathematical integer. *)
Definition index_of_integer (z : Z) : index :=
  let d := nearest_double z in
  if overflows d then Infinite (d <? 0) else At d.

(** [i + n] for an integer [n]: the sum is rounded to the nearest double. *)
Definition index_plus (i : index) (n : Z) : index :=
  match i with
  | At z => index_of_integer (z + n)
  | Infinite negative => Infinite negative
  | NotANumber => NotANumber
  end.

(** [i % n] for an integer [n]: the remainder is exact and has the sign of
    [i]; it is NaN for a zero [n] and for an infinite [i]. *)
Definition index_rem (i : index) (n : Z) : index :=
  match i with
  | At z => if n =? 0 then NotANumber else At (Z.rem z n)
  | Infinite _ | NotANumber => NotANumber
  end.

(** An array holds fewer than 2^32 elements. *)
Definition max_array_length : Z := 4294967295.

(** [set[i]]: undefined off the array. *)
Definition element (set : list item) (i : index) : option item :=
  match i with
  | At z => if z <? 0 then None else set !! Z.to_nat z
  | Infinite _ | NotANumber => None
  end.

Record page : Type := {
  lightboxIndex : index;
  (** [lightboxImg.src] and [lightboxImg.alt] *)
  img_src : string;
  img_alt : string;
  (** whether [lightbox.classList] holds 'active' *)
  active : bool;
  (** [document.body.style.overflow] *)
  overflow : string;
  (** [lightboxPrev.onclick] and [lightboxNext.onclick], by the set the
      handler closes over *)
  prev_onclick : option (list item);
  next_onclick : option (list item);
  (** the pending keydown listeners registered with [once], oldest first,
      each by the set it closes over *)
  keydown_once : list (list item);
}.

Definition set_lightboxIndex (i : index) (p : page) : page :=
  {| lightboxIndex := i; img_src := img_src p; img_alt := img_alt p;
     active := active p; overflow := overflow p; prev_onclick := prev_onclick p;
     next_onclick := next_onclick p; keydown_once := keydown_once p |}.

Definition set_img_src (v : string) (p : page) : page :=
  {| lightboxIndex := lightboxIndex p; img_src := v; img_alt := img_alt p;
     active := active p; overflow := overflow p; prev_onclick := prev_onclick p;
     next_onclick := next_onclick p; keydown_once := keydown_once p |}.

Definition set_img_alt (v : string) (p : page) : page :=
  {| lightboxIndex := lightboxIndex p; img_src := img_src p; img_alt := v;
     active := active p; overflow := overflow p; prev_onclick := prev_onclick p;
     next_onclick := next_onclick p; keydown_once := keydown_once p |}.

Definition set_active (v : bool) (p : page) : page :=
  {| lightboxIndex := lightboxIndex p; img_src := img_src p; img_alt := img_alt p;
     active := v; overflow := overflow p; prev_onclick := prev_onclick p;
     next_onclick := next_onclick p; keydown_once := keydown_once p |}.

Definition set_overflow (v : string) (p : page) : page :=
  {| lightboxIndex := lightboxIndex p; img_src := img_src p; img_alt := img_alt p;
     active := active p; overflow := v; prev_onclick := prev_onclick p;
     next_onclick := next_onclick p; keydown_once := keydown_once p |}.

Definition set_prev_onclick (v : option (list item)) (p : page) : page :=
  {| lightboxIndex := lightboxIndex p; img_src := img_src p; img_alt := img_alt p;
     active := active p; overflow := overflow p; prev_onclick := v;
     next_onclick := next_onclick p; keydown_once := keydown_once p |}.

Definition set_next_onclick (v : option (list item)) (p : page) : page :=
  {| lightboxIndex := lightboxIndex p; img_src := img_src p; img_alt := img_alt p;
     active := active p; overflow := overflow p; prev_onclick := prev_onclick p;
     next_onclick := v; keydown_once := keydown_once p |}.

Definition set_keydown_once (v : list (list item)) (p : page) : page :=
  {| lightboxIndex := lightboxIndex p; img_src := img_src p; img_alt := img_alt p;
     active := active p; overflow := overflow p; prev_onclick := prev_onclick p;
     next_onclick := next_onclick p; keydown_once := v |}.

(** Reading a property of [set[lightboxIndex]]: a TypeError on undefined. *)
Definition current (set : list item) : M page item := λ p,
  match element set (lightboxIndex p) with
  | Some it => (Normal it, p)
  | None => (Throw TypeError, p)
  end.

(** [show(i)] *)
Definition show (set : list item) (i : index) : M page () :=
  let len := Z.of_nat (length set) in
  modify (set_lightboxIndex (index_rem (index_plus i len) len));;
  it ← current set;
  modify (set_img_src (url it));;
  it' ← current set;
  modify (set_img_alt (title it')).

(** The statements that open the lightbox. *)
Definition open_lightbox (items : list item) (startIndex : index) : M page () :=
  modify (set_lightboxIndex startIndex);;
  i ← gets lightboxIndex;
  show items i;;
  modify (set_active true);;
  modify (set_overflow "hidden");;
  modify (set_prev_onclick (Some items));;
  modify (set_next_onclick (Some items));;
  modify (λ p, set_keydown_once (keydown_once p ++ [items]) p).

Definition onPrev (set : list item) : M page () :=
  i ← gets lightboxIndex; show set (index_plus i (-1)).

Definition onNext (set : list item) : M page () :=
  i ← gets lightboxIndex; show set (index_plus i 1).

Definition closeLightbox : M page () :=
  modify (set_active false);;
  modify (set_overflow EmptyString).

Definition onKey (set : list item) (key : string) : M page () :=
  (if String.eqb key "Escape" then closeLightbox else mret ());;
  (if String.eqb key "ArrowLeft" then onPrev set else mret ());;
  (if String.eqb key "ArrowRight" then onNext set else mret ()).

(** What the user does on the page. *)
Inductive ui_event : Type :=
  | ClickPrev
  | ClickNext
  | ClickClose
  (** a click inside the lightbox, on the backdrop itself or on a child *)
  | ClickLightbox (on_backdrop : bool)
  | KeyDown (key : string).

(** The browser runs a listener and reports what it throws; the page stays
    as the listener left it. *)
Definition run_listener (h : M page ()) (p : page) : page := (h p).2.

(** Dispatch of one event to the listeners registered for it.  A listener
    registered with [once] is removed before it runs. *)
Definition dispatch (ev : ui_event) (p : page) : page :=
  match ev with
  | ClickPrev =>
      match prev_onclick p with
      | Some set => run_listener (onPrev set) p
      | None => p
      end
  | ClickNext =>
      match next_onclick p with
      | Some set => run_listener (onNext set) p
      | None => p
      end
  | ClickClose => run_listener closeLightbox p
  | ClickLightbox on_backdrop =>
      if on_backdrop then run_listener closeLightbox p else p
  | KeyDown key =>
      foldl (λ q set, run_listener (onKey set key) q)
        (set_keydown_once [] p) (keydown_once p)
  end.

(** The page shows the item of [set] at the integer [z]. *)
Definition displayed (set : list item) (z : Z) (p : page) : Prop :=
  lightboxIndex p = At z
  ∧ ∃ it, set !! Z.to_nat z = Some it ∧ img_src p = url it ∧ img_alt p = title it.

(** *** Focus outline: keyboard or mouse

    The class 'using-mouse' on the body, and whether the one-shot mousedown
    listener is registered. *)

Record focus : Type := {
  using_mouse : bool;
  mousedown_once : bool;
}.

Inductive input : Type :=
  | Key (key : string)
  | MouseDown.

Definition handleMouseDownOnce (f : focus) : focus :=
  {| using_mouse := true; mousedown_once := false |}.

Definition handleKeyDown (key : string) (f : focus) : focus :=
  if String.eqb key "Tab"
  then {| using_mouse := false; mousedown_once := true |}
  else f.

Definition focus_step (f : focus) (i : input) : focus :=
  match i with
  | Key key => handleKeyDown key f
  | MouseDown => if mousedown_once f then handleMouseDownOnce f else f
  end.

(** The inputs of a session, oldest first, from the state [focusVis] leaves:
    the keydown listener registered, the mousedown listener not. *)
Definition focus_after (class_at_load : bool) (inputs : list input) : focus :=
  foldl focus_step {| using_mouse := class_at_load; mousedown_once := false |} inputs.

Definition is_Tab (i : input) : bool :=
  match i with
  | Key key => String.eqb key "Tab"
  | MouseDown => false
  end.

Definition is_MouseDown (i : input) : bool :=
  match i with
  | MouseDown => true
  | Key _ => false
  end.

(** ** Inputs of further closed examples *)

Definition session_request_url : option jsval :=
  optional_get session_request "validationURL".

Definition gallery : list item :=
  [ {| url := "img/diwali.jpg"; title := "Diwali Night" |};
    {| url := "img/holi.jpg"; title := "Holi" |};
    {| url := "img/eid.jpg"; title := "Eid Dinner" |} ].

Definition blank_page : page :=
  {| lightboxIndex := At 0; img_src := EmptyString; img_alt := EmptyString;
     active := false; overflow := EmptyString; prev_onclick := None;
     next_onclick := None; keydown_once := [] |}.


(** * Properties *)

(** ** The example runtime on its fragment *)

Example example_parse_ok_true :
  JSON_parse ok_true = Some (JObj [("ok", JBool true)]).
Proof. reflexivity. Qed.

Example example_stringify_ok_true :
  JSON_stringify (JObj [("ok", JBool true)]) = ok_true.
Proof. reflexivity. Qed.

Example example_parse_spaced :
  JSON_parse ("{ " +:+ DQ +:+ "ok" +:+ DQ +:+ " : [true, -12, null] }")
  = Some (JObj [("ok", JArr [JBool true; JNum (of_Z (-12)); JNull])]).
Proof. reflexivity. Qed.

Example example_parse_empty : JSON_parse EmptyString = None.
Proof. reflexivity. Qed.

Example example_numbers :
  StringToNumber "25" = of_Z 25 ∧ StringToNumber "-1" = Finite (- inject_Z 1)
  ∧ StringToNumber "abc" = NaN ∧ StringToNumber "Infinity" = PosInf
  ∧ StringToNumber " 25 " = of_Z 25
  ∧ StringToNumber "9007199254740993" = of_Z 9007199254740992.
Proof. repeat split; vm_compute; reflexivity. Qed.

(** Array-index keys come first, and an integer beyond 2^53 is rounded and
    written with the fewest digits that denote it. *)
Example example_parse_object_order :
  JSON_parse ("{" +:+ DQ +:+ "b" +:+ DQ +:+ ":1," +:+ DQ +:+ "2" +:+ DQ +:+ ":2,"
              +:+ DQ +:+ "1" +:+ DQ +:+ ":9007199254740993}")
  = Some (JObj [("1", JNum (of_Z 9007199254740992)); ("2", JNum (of_Z 2));
                ("b", JNum (of_Z 1))]).
Proof. vm_compute. reflexivity. Qed.

Example example_stringify_large :
  JSON_stringify (JArr [JNum (of_Z 18446744073709551616);
                        JNum (of_Z 1000000000000000000000)])
  = "[18446744073709552000,1e+21]".
Proof. vm_compute. reflexivity. Qed.

(** ** Doubles *)

Lemma two_53_below_two_1024 : two_53 < two_1024.
Proof. reflexivity. Qed.

Lemma nearest_double_exact (z : Z) : Z.abs z ≤ two_53 → nearest_double z = z.
Proof.
  intros Hz. unfold nearest_double.
  by replace (Z.abs z <=? two_53) with true by (symmetry; by apply Z.leb_le).
Qed.

Lemma Number_of_integer_exact (z : Z) :
  Z.abs z ≤ two_53 → Number_of_integer z = of_Z z.
Proof.
  intros Hz. unfold Number_of_integer, overflows. rewrite nearest_double_exact by done.
  pose proof two_53_below_two_1024.
  by replace (two_1024 <=? Z.abs z) with false by (symmetry; apply Z.leb_gt; lia).
Qed.

(** ** Numbers and arrays *)

Lemma Qtrunc_inject_Z (z : Z) : Qtrunc (inject_Z z) = z.
Proof. unfold Qtrunc. simpl. apply Z.quot_1_r. Qed.

Lemma Qtrunc_le (q : Q) : (0 <= q)%Q → (inject_Z (Qtrunc q) <= q)%Q.
Proof.
  destruct q as [n d]. unfold Qle, Qtrunc. simpl. intros Hn.
  rewrite Z.mul_1_r in Hn. rewrite Z.mul_1_r.
  rewrite Z.mul_comm. apply Z.mul_quot_le; lia.
Qed.


(** A slice from index zero is a prefix. *)
Lemma Array_slice_0 {A} (l : list A) (stop : number) :
  Array_slice l (of_Z 0) stop
  = take (Z.to_nat (relative_index (ToIntegerOrInfinity stop) (Z.of_nat (length l)))) l.
Proof.
  unfold Array_slice. cbn [ToIntegerOrInfinity of_Z].
  rewrite Qtrunc_inject_Z. cbn [relative_index].
  replace (0 <? 0) with false by reflexivity.
  rewrite Z.min_l by lia. rewrite Z.sub_0_r. simpl drop.
  f_equal. destruct (ToIntegerOrInfinity stop) as [z| |]; cbn [relative_index]; lia.
Qed.





(** ** The stable sort *)

Lemma sort_insert_perm {A} (cmp : A → A → Z) (x : A) (l : list A) :
  sort_insert cmp x l ≡ₚ x :: l.
Proof.
  induction l as [|y l IH]; simpl; [done|].
  destruct (cmp x y <=? 0); [done|].
  rewrite IH. apply Permutation_swap.
Qed.

Lemma Array_sort_perm {A} (cmp : A → A → Z) (l : list A) :
  Array_sort cmp l ≡ₚ l.
Proof.
  induction l as [|x l IH]; simpl; [done|].
  by rewrite sort_insert_perm, IH.
Qed.

Lemma sort_insert_sorted (x : payment) (l : list payment) :
  StronglySorted not_older l → StronglySorted not_older (sort_insert by_ts_desc x l).
Proof.
  induction 1 as [|y l Hl IH Hy]; simpl.
  - repeat constructor.
  - unfold by_ts_desc at 1. destruct (Z.leb_spec (ts y - ts x) 0) as [Hle|Hgt].
    + constructor; [by constructor|].
      constructor; [unfold not_older; lia|].
      eapply Forall_impl; [exact Hy|]. unfold not_older. intros z Hz. lia.
    + constructor; [done|].
      rewrite sort_insert_perm. constructor; [unfold not_older; lia|done].
Qed.

Lemma Array_sort_sorted (l : list payment) :
  StronglySorted not_older (Array_sort by_ts_desc l).
Proof.
  induction l as [|x l IH]; simpl; [constructor|by apply sort_insert_sorted].
Qed.





(** ** Running the listing *)

Section Listing.
Context `{R : Runtime}.

Lemma get_payments_run (limit_param : option qval) (s : server) :
  handle (get_payments limit_param) s
  = (Normal (res_json (Payments (recent (Number_limit_or_25 limit_param) (payments s)))), s).
Proof. destruct s. reflexivity. Qed.
End Listing.

(** ** The fan-out *)

Section FanOut.
Context `{R : Runtime} (w : world).

Lemma deliver_cons (chunk : string) (c : conn) (rest : list conn)
    (m : gmap conn (list string)) :
  deliver w chunk (c :: rest) m
  = deliver w chunk rest (match transport_of w c with
                          | Open => <[c := m !!! c ++ [chunk]]> m
                          | _ => m
                          end).
Proof. reflexivity. Qed.

Lemma for_of_res_write (chunk : string) (clients : list conn) (f : frame) :
  for_of clients (λ res, res_write w res chunk;; mret ()) f
  = (Normal (), with_srv (with_sent (deliver w chunk clients)) f).
Proof.
  revert f. induction clients as [|c rest IH]; intros f.
  - destruct f as [[] ?]. reflexivity.
  - cbn [for_of].
    unfold mbind at 1, M_bind at 1. unfold mbind at 1, M_bind at 1.
    unfold res_write at 1.
    destruct (transport_of w c) eqn:Hc; cbn [mret M_ret]; rewrite IH;
      destruct f as [[] ?]; unfold with_srv, with_sent; cbn [srv locals sent];
      rewrite deliver_cons, Hc; reflexivity.
Qed.

Lemma deliver_lookup (chunk : string) (clients : list conn)
    (m : gmap conn (list string)) (c : conn) :
  NoDup clients →
  deliver w chunk clients m !!! c
  = if decide (c ∈ clients ∧ transport_of w c = Open)
    then m !!! c ++ [chunk] else m !!! c.
Proof.
  intros Hnd. revert m. induction Hnd as [|c' rest Hnotin Hnd IH]; intros m.
  - cbn. case_decide as H; [|done]. destruct H as [H _]. by apply elem_of_nil in H.
  - rewrite deliver_cons, IH. destruct (decide (c = c')) as [->|Hne].
    + destruct (transport_of w c') eqn:Hc.
      * rewrite decide_False by (intros [? _]; done).
        rewrite decide_True by (split; [left|done]).
        by rewrite lookup_total_insert_eq.
      * rewrite decide_False by (intros [? _]; done).
        rewrite decide_False by (intros [_ ?]; done). done.
    + assert (m !!! c = (match transport_of w c' with
                         | Open => <[c' := m !!! c' ++ [chunk]]> m
                         | Destroyed => m
                         end) !!! c) as <-.
      { destruct (transport_of w c'); [|done].
        by rewrite lookup_total_insert_ne. }
      apply decide_ext. rewrite elem_of_cons. intuition congruence.
Qed.

(** A stream outside the run is left alone. *)
Lemma deliver_notin (chunk : string) (clients : list conn)
    (m : gmap conn (list string)) (c : conn) :
  c ∉ clients → deliver w chunk clients m !!! c = m !!! c.
Proof.
  revert m. induction clients as [|c' rest IH]; intros m Hc; [done|].
  apply not_elem_of_cons in Hc as [Hne Hc].
  rewrite deliver_cons, IH by done.
  destruct (transport_of w c'); [|done]. by rewrite lookup_total_insert_ne.
Qed.

Lemma broadcast_frame (event : string) (data : jsval) (f : frame) :
  broadcast w event data f
  = (Normal (),
     with_srv (with_sent (deliver w (sse_payload event data) (sseClients (srv f)))) f).
Proof.
  unfold broadcast. unfold mbind at 1, M_bind at 1. cbn [gets].
  apply for_of_res_write.
Qed.

Lemma broadcast_run (event : string) (data : jsval) (s : server) :
  handle (broadcast w event data) s
  = (Normal (),
     with_sent (deliver w (sse_payload event data) (sseClients s)) s).
Proof. unfold handle. rewrite broadcast_frame. reflexivity. Qed.

(** The record a valid submission appends. *)
Lemma post_payments_run (value : payment_fields) (now : Z) (s : server) :
  let entry := {| name := fullName value; pay_method := value_method value;
                  amount := value_amount value; ts := now |} in
  handle (post_payments w (Valid value) now) s
  = (Normal (res_json (Payment entry)),
     with_sent (deliver w (sse_payload "payment" (payment_to_js entry)) (sseClients s))
       (with_payments (λ l, l ++ [entry]) s)).
Proof.
  intros entry. unfold handle, post_payments. fold entry.
  unfold mbind at 1, M_bind at 1.
  unfold push, array_get, array_set, modify. unfold mbind at 1, M_bind at 1.
  cbn [srv]. unfold mbind at 1, M_bind at 1. rewrite broadcast_frame.
  reflexivity.
Qed.

Lemma post_payments_invalid (messages : list string) (now : Z) (s : server) :
  handle (post_payments w (Invalid messages) now) s
  = (Normal (res_status_json 400 (Errors messages)), s).
Proof. reflexivity. Qed.

Lemma post_contact_run (validated : validation contact_fields) (now : Z) (s : server) :
  ∃ r cs, handle (post_contact validated now) s
          = (Normal r, with_contacts (λ l, l ++ cs) s).
Proof.
  destruct validated as [messages|value].
  - exists (res_status_json 400 (Errors messages)), [].
    destruct s. unfold with_contacts. cbn. by rewrite app_nil_r.
  - eexists _, [_]. reflexivity.
Qed.

Lemma on_close_run (res : conn) (s : server) :
  handle (on_close res) s
  = (Normal (),
     with_sseClients (Set_delete res) (with_keepAlive (λ t, t ∖ {[res]}) s)).
Proof. reflexivity. Qed.

Lemma stream_run (res : conn) (s : server) :
  handle (stream w res) s
  = (Normal (),
     with_keepAlive (λ t, {[res]} ∪ t)
       (with_sseClients (Set_add res)
          (match transport_of w res with
           | Open => with_sent (λ m, <[res := m !!! res ++ [hello]]> m) s
           | Destroyed => s
           end))).
Proof.
  unfold handle, stream. unfold mbind at 1, M_bind at 1. unfold res_write.
  destruct (transport_of w res); destruct s; reflexivity.
Qed.

Lemma keep_alive_run (res : conn) (s : server) :
  ∃ r g, handle (keep_alive w res) s = (r, with_sent g s).
Proof.
  unfold handle, keep_alive. unfold mbind at 1, M_bind at 1. cbn [gets srv].
  destruct (bool_decide (res ∈ keepAlive s)).
  - unfold mbind at 1, M_bind at 1. unfold res_write.
    destruct (transport_of w res).
    + eexists _, _. reflexivity.
    + exists (Normal ()), id. by destruct s.
  - exists (Normal ()), id. by destruct s.
Qed.
End FanOut.

(** ** The merchant-validation proxy *)

Ltac run_M :=
  cbv beta iota zeta delta
    [handle mbind M_bind mret M_ret try_catch throw await modify gets emit
     console_error fs_readFileSync node_fetch text json res_status fmap M_fmap
     with_srv srv locals negb].

Section ValidatorFacts.
Context `{R : Runtime} (w : world) (e : env).

Lemma validate_session_disabled (req_body : option jsval) (s : server) :
  APPLE_ENABLED e = false →
  handle (validate_session w e req_body) s
  = (Normal (res_status_json 501 (Error "Apple Pay validation disabled on this server.")), s).
Proof. intros He. unfold validate_session. rewrite He. reflexivity. Qed.

Lemma validate_session_no_url (req_body : option jsval) (s : server) :
  APPLE_ENABLED e = true →
  truthy (optional_get req_body "validationURL") = false →
  handle (validate_session w e req_body) s
  = (Normal (res_status_json 400 (Error "Missing validationURL")), s).
Proof. intros He Hu. unfold validate_session. rewrite He, Hu. reflexivity. Qed.

Lemma validate_session_unconfigured (req_body : option jsval) (s : server) :
  APPLE_ENABLED e = true →
  truthy (optional_get req_body "validationURL") = true →
  config_missing e = true →
  handle (validate_session w e req_body) s
  = (Normal (res_status_json 500 (Error "Merchant config missing.")), s).
Proof.
  intros He Hu Hc. unfold validate_session. rewrite He, Hu.
  run_M. rewrite Hc. reflexivity.
Qed.

(** The call goes out: the certificate is read and the remote end answers. *)
Lemma validate_session_answered (req_body : option jsval) (s : server)
    (cert : string) (up : upstream) :
  APPLE_ENABLED e = true →
  truthy (optional_get req_body "validationURL") = true →
  config_missing e = false →
  readFileSync w (the (MERCHANT_CERT_PATH e)) = Some cert →
  fetch w (optional_get req_body "validationURL")
    (JSON_stringify (merchant_payload e)) cert = Fulfilled up →
  let called := [ReadFile (the (MERCHANT_CERT_PATH e));
                 Outbound (optional_get req_body "validationURL")
                   (JSON_stringify (merchant_payload e)) cert] in
  let failed (cause : exn) :=
    (Normal (res_status_json 500 (Error "Validation request failed.")),
     with_effects (λ l, l ++ called ++ [ConsoleError cause]) s) in
  handle (validate_session w e req_body) s
  = match up_text up with
    | Never => (Suspended, with_effects (λ l, l ++ called) s)
    | Rejected => failed BodyError
    | Fulfilled t =>
        if ok up then
          match JSON_parse t with
          | Some session =>
              (Normal (res_json (Json session)), with_effects (λ l, l ++ called) s)
          | None => failed SyntaxError
          end
        else if (100 <=? up_status up) && (up_status up <=? 999) then
          (Normal (res_status_json (up_status up) (Error (string_or t "Apple error"))),
           with_effects (λ l, l ++ called) s)
        else failed RangeError
    end.
Proof.
  intros He Hu Hc Hf Hup called failed. unfold validate_session. rewrite He, Hu.
  run_M. rewrite Hc, Hf. run_M. rewrite Hup.
  destruct (ok up), (up_text up) as [t| |]; run_M;
    [destruct (JSON_parse t)| | |
     destruct ((100 <=? up_status up) && (up_status up <=? 999))| |];
    destruct s; unfold failed, with_effects, called;
    cbn [effects contacts payments sseClients keepAlive sent];
    rewrite <- ?app_assoc; reflexivity.
Qed.

(** The certificate cannot be read: nothing goes out. *)
Lemma validate_session_unreadable (req_body : option jsval) (s : server) :
  APPLE_ENABLED e = true →
  truthy (optional_get req_body "validationURL") = true →
  config_missing e = false →
  readFileSync w (the (MERCHANT_CERT_PATH e)) = None →
  handle (validate_session w e req_body) s
  = (Normal (res_status_json 500 (Error "Validation request failed.")),
     with_effects (λ l, l ++ [ReadFile (the (MERCHANT_CERT_PATH e));
                              ConsoleError (FileError (the (MERCHANT_CERT_PATH e)))]) s).
Proof.
  intros He Hu Hc Hf. unfold validate_session. rewrite He, Hu.
  run_M. rewrite Hc, Hf. run_M.
  destruct s; unfold with_effects; cbn [effects contacts payments sseClients keepAlive sent].
  rewrite <- ?app_assoc. reflexivity.
Qed.

(** The call goes out and its promise rejects, or never settles. *)
Lemma validate_session_unanswered (req_body : option jsval) (s : server)
    (cert : string) :
  APPLE_ENABLED e = true →
  truthy (optional_get req_body "validationURL") = true →
  config_missing e = false →
  readFileSync w (the (MERCHANT_CERT_PATH e)) = Some cert →
  let called := [ReadFile (the (MERCHANT_CERT_PATH e));
                 Outbound (optional_get req_body "validationURL")
                   (JSON_stringify (merchant_payload e)) cert] in
  (fetch w (optional_get req_body "validationURL")
     (JSON_stringify (merchant_payload e)) cert = Rejected →
   handle (validate_session w e req_body) s
   = (Normal (res_status_json 500 (Error "Validation request failed.")),
      with_effects (λ l, l ++ called ++ [ConsoleError FetchError]) s))
  ∧ (fetch w (optional_get req_body "validationURL")
       (JSON_stringify (merchant_payload e)) cert = Never →
     handle (validate_session w e req_body) s
     = (Suspended, with_effects (λ l, l ++ called) s)).
Proof.
  intros He Hu Hc Hf called.
  split; intros Hup; unfold validate_session; rewrite He, Hu;
    run_M; rewrite Hc, Hf; run_M; rewrite Hup;
    destruct s; unfold with_effects, called;
    cbn [effects contacts payments sseClients keepAlive sent];
    rewrite <- ?app_assoc; reflexivity.
Qed.

Lemma with_effects_nil (s : server) : with_effects (λ l, l ++ []) s = s.
Proof. destruct s. unfold with_effects. cbn. by rewrite app_nil_r. Qed.

(** Whatever the request and however the call ends, it touches nothing but
    the record of effects. *)
Lemma validate_session_frame (req_body : option jsval) (s : server) :
  ∃ c effs, handle (validate_session w e req_body) s
            = (c, with_effects (λ l, l ++ effs) s).
Proof.
  destruct (APPLE_ENABLED e) eqn:He;
    [|rewrite validate_session_disabled by done; eexists _, [];
      by rewrite with_effects_nil].
  destruct (truthy (optional_get req_body "validationURL")) eqn:Hu;
    [|rewrite validate_session_no_url by done; eexists _, [];
      by rewrite with_effects_nil].
  destruct (config_missing e) eqn:Hc;
    [rewrite validate_session_unconfigured by done; eexists _, [];
     by rewrite with_effects_nil|].
  destruct (readFileSync w (the (MERCHANT_CERT_PATH e))) as [cert|] eqn:Hf;
    [|rewrite validate_session_unreadable by done; by eexists _, _].
  destruct (validate_session_unanswered req_body s cert He Hu Hc Hf)
    as [Hrejected Hnever].
  destruct (fetch w (optional_get req_body "validationURL")
              (JSON_stringify (merchant_payload e)) cert) as [up| |] eqn:Hup;
    [|rewrite Hrejected by done; by eexists _, _
     |rewrite Hnever by done; by eexists _, _].
  rewrite (validate_session_answered _ _ cert up) by done.
  destruct (up_text up) as [t| |];
    [destruct (ok up);
     [destruct (JSON_parse t)
     |destruct ((100 <=? up_status up) && (up_status up <=? 999))]| |];
    by eexists _, _.
Qed.
End ValidatorFacts.

(** ** The server as a whole *)

Lemma handle_fmap_snd {A B} (g : A → B) (h : M frame A) (s : server) :
  (handle (g <$> h) s).2 = (handle h s).2.
Proof.
  unfold handle, fmap, M_fmap, mbind, M_bind.
  destruct (h _) as [[a|x|] f]; reflexivity.
Qed.

Lemma handle_then_snd {A B} (h : M frame A) (b : B) (s : server) :
  (handle (h;; mret b) s).2 = (handle h s).2.
Proof.
  unfold handle, mbind, M_bind.
  destruct (h _) as [[a|x|] f]; reflexivity.
Qed.

Lemma NoDup_Set_add (c : conn) (set : list conn) :
  NoDup set → NoDup (Set_add c set).
Proof.
  intros Hnd. unfold Set_add. case_decide as Hin; [done|].
  apply NoDup_app. repeat split; [done| |apply NoDup_singleton].
  intros x Hx ->%list_elem_of_singleton. done.
Qed.

Lemma NoDup_Set_delete (c : conn) (set : list conn) :
  NoDup set → NoDup (Set_delete c set).
Proof. apply NoDup_filter. Qed.

Lemma Set_delete_notin (c : conn) (set : list conn) :
  c ∉ set → Set_delete c set = set.
Proof.
  unfold Set_delete. induction set as [|x set IH]; [done|].
  rewrite not_elem_of_cons. intros [Hne Hnotin].
  rewrite filter_cons_True by done. by rewrite IH.
Qed.

Lemma not_elem_of_Set_delete (c : conn) (set : list conn) :
  c ∉ Set_delete c set.
Proof. unfold Set_delete. rewrite list_elem_of_filter. tauto. Qed.

Lemma Set_delete_idemp (c : conn) (set : list conn) :
  Set_delete c (Set_delete c set) = Set_delete c set.
Proof. apply Set_delete_notin, not_elem_of_Set_delete. Qed.

Lemma elem_of_Set_add (c x : conn) (set : list conn) :
  x ∈ Set_add c set ↔ x = c ∨ x ∈ set.
Proof.
  unfold Set_add. case_decide as Hin.
  - split; [by right|]. by intros [->|?].
  - rewrite elem_of_app, list_elem_of_singleton. tauto.
Qed.

Lemma elem_of_Set_delete (c x : conn) (set : list conn) :
  x ∈ Set_delete c set ↔ x ≠ c ∧ x ∈ set.
Proof. unfold Set_delete. by rewrite list_elem_of_filter. Qed.

Section ServerFacts.
Context `{R : Runtime} (w : world) (e : env).

(** Every request leaves the records of the ledger in place, in order, and
    adds at its end at most. *)
Lemma step_payments (r : request) (s : server) :
  payments s `prefix_of` payments (step w e r s).
Proof.
  unfold step. destruct r; cbn [serve];
    rewrite ?handle_fmap_snd, ?handle_then_snd.
  - reflexivity.
  - destruct (post_contact_run validated now s) as (r & cs & ->). reflexivity.
  - destruct validated as [messages|value].
    + rewrite post_payments_invalid. reflexivity.
    + rewrite post_payments_run. cbn. by eexists.
  - rewrite get_payments_run. reflexivity.
  - rewrite stream_run. by destruct (transport_of w res).
  - rewrite on_close_run. reflexivity.
  - destruct (keep_alive_run w res s) as (r & g & ->). reflexivity.
  - destruct (validate_session_frame w e req_body s) as (c & effs & ->). reflexivity.
Qed.

(** The Set of streams stays a set. *)
Lemma step_NoDup (r : request) (s : server) :
  NoDup (sseClients s) → NoDup (sseClients (step w e r s)).
Proof.
  intros Hnd. unfold step. destruct r; cbn [serve];
    rewrite ?handle_fmap_snd, ?handle_then_snd.
  - done.
  - by destruct (post_contact_run validated now s) as (r & cs & ->).
  - destruct validated as [messages|value].
    + by rewrite post_payments_invalid.
    + by rewrite post_payments_run.
  - by rewrite get_payments_run.
  - rewrite stream_run.
    destruct (transport_of w res); cbn; apply NoDup_Set_add; done.
  - rewrite on_close_run. cbn. by apply NoDup_Set_delete.
  - by destruct (keep_alive_run w res s) as (r & g & ->).
  - by destruct (validate_session_frame w e req_body s) as (r & effs & ->).
Qed.

(** The intervals and the Set go together. *)
Lemma step_registered_armed (r : request) (s : server) :
registered_armed s → registered_armed (step w e r s).
Proof.
intros Hs. unfold step. destruct r; cbn [serve];
  rewrite ?handle_fmap_snd, ?handle_then_snd.
- done.
- by destruct (post_contact_run validated now s) as (r & cs & ->).
- destruct validated as [messages|value].
  + by rewrite post_payments_invalid.
  + by rewrite post_payments_run.
- by rewrite get_payments_run.
- rewrite stream_run.
  destruct (transport_of w res); intros c;
    unfold with_keepAlive, with_sseClients, with_sent; cbn [keepAlive sseClients snd];
    rewrite elem_of_union, elem_of_singleton, elem_of_Set_add, (Hs c); tauto.
- rewrite on_close_run. intros c.
  unfold with_keepAlive, with_sseClients. cbn [keepAlive sseClients snd].
  rewrite elem_of_difference, elem_of_singleton, elem_of_Set_delete, (Hs c). tauto.
- by destruct (keep_alive_run w res s) as (r & g & ->).
- by destruct (validate_session_frame w e req_body s) as (r & effs & ->).
Qed.
End ServerFacts.

(** In every state the server reaches, the Set of streams has no duplicate
    and the armed intervals are those of the streams in it. *)
Lemma reachable_wf `{R : Runtime} (now1 now2 now3 : Z) (s : server) :
  reachable now1 now2 now3 s → NoDup (sseClients s) ∧ registered_armed s.
Proof.
  induction 1 as [|w e r s Hs [Hnd Harmed]].
  - split; [constructor|]. intros c. cbn. set_solver.
  - split; [by apply step_NoDup|by apply step_registered_armed].
Qed.


(** ** The claims *)

(** *** Broadcaster *)

(** C1, as stated, fails in its last part.  With three subscribed streams
    of which the second has lost its socket, a publish serves the first and
    the third and returns normally, and it marks nothing: the second stream
    is still in the set and its keep-alive interval still armed, and the
    state differs from the one before only in what the two open streams
    were sent. *)
Lemma broadcast_cleanup_counterexample :
  let data := payment_to_js (test_entry 1000) in
  let '(r, s') := handle (broadcast (stream_2 Destroyed) "payment" data) three_streams in
  sseClients three_streams = [1; 2; 3]%nat
  ∧ transport_of (stream_2 Destroyed) 2%nat = Destroyed
  ∧ r = Normal ()
  ∧ sent s' !!! 1%nat = [hello; sse_payload "payment" data]
  ∧ sent s' !!! 2%nat = [hello]
  ∧ sent s' !!! 3%nat = [hello; sse_payload "payment" data]
  ∧ sseClients s' = [1; 2; 3]%nat
  ∧ 2%nat ∈ keepAlive s'
  ∧ with_sent (λ _, sent three_streams) s' = three_streams.
Proof.
  intros data. rewrite broadcast_run.
  split; [reflexivity|]. split; [reflexivity|]. split; [reflexivity|].
  split; [vm_compute; reflexivity|]. split; [vm_compute; reflexivity|].
  split; [vm_compute; reflexivity|]. split; [reflexivity|].
  split; [apply (bool_decide_unpack _); vm_compute; exact I|].
  by destruct three_streams.
Qed.

(** C1 (amended): a publish returns normally, whatever the sockets do; it
    writes the event once to every stream of the Set whose socket is open,
    and to no other stream; and it leaves the Set, the keep-alive intervals
    and the rest of the state as they were, a stream whose write failed
    included. *)
Theorem broadcast_delivery `{R : Runtime} (w : world) (s : server)
    (event : string) (data : jsval) :
  NoDup (sseClients s) →
  ∃ s',
    handle (broadcast w event data) s = (Normal (), s')
    ∧ (∀ c, sent s' !!! c
            = if decide (c ∈ sseClients s ∧ transport_of w c = Open)
              then sent s !!! c ++ [sse_payload event data]
              else sent s !!! c)
    ∧ sseClients s' = sseClients s
    ∧ keepAlive s' = keepAlive s
    ∧ payments s' = payments s
    ∧ contacts s' = contacts s
    ∧ effects s' = effects s.
Proof.
  intros Hnd. eexists. rewrite broadcast_run. split; [reflexivity|].
  cbn [with_sent sseClients keepAlive payments contacts effects sent].
  split; [|done]. intros c. by apply deliver_lookup.
Qed.

(** On the three subscribed streams with the socket of the second one gone:
    the publisher gets no error, the first and the third stream get the
    event, the second nothing, and the Set still holds all three. *)
Lemma broadcast_delivery_witness :
  ∃ s',
    handle (broadcast (stream_2 Destroyed) "payment" JNull) three_streams
    = (Normal (), s')
    ∧ sseClients s' = [1; 2; 3]%nat
    ∧ sent s' !!! 1%nat = [hello; sse_payload "payment" JNull]
    ∧ sent s' !!! 2%nat = [hello]
    ∧ sent s' !!! 3%nat = [hello; sse_payload "payment" JNull].
Proof.
  destruct (broadcast_delivery (stream_2 Destroyed) three_streams "payment" JNull)
    as (s' & Hrun & Hsent & Hset & _).
  - apply (bool_decide_unpack _). vm_compute. exact I.
  - exists s'. split; [exact Hrun|]. split; [exact Hset|].
    repeat split; rewrite Hsent; reflexivity.
Defined.

(** C9: the close handler is idempotent.  It never throws; run a second time
    it changes nothing; the stream it was run for is not in the set
    afterwards; for a stream that is not in the set (one never registered,
    or already removed) it leaves the set as it was, and the whole state
    too when the intervals go with the set, as they do in every state the
    server reaches. *)
Theorem on_close_idempotent (res : conn) (s : server) :
  let '(r1, s1) := handle (on_close res) s in
  let '(r2, s2) := handle (on_close res) s1 in
  r1 = Normal () ∧ r2 = Normal ()
  ∧ s2 = s1
  ∧ (res ∉ sseClients s1)
  ∧ (res ∉ sseClients s → sseClients s1 = sseClients s)
  ∧ (res ∉ sseClients s → registered_armed s → s1 = s).
Proof.
  rewrite !on_close_run. split; [done|]. split; [done|].
  destruct s as [cs ps set timers out effs].
  unfold with_sseClients, with_keepAlive.
  cbn [contacts payments sseClients keepAlive sent effects].
  repeat split.
  - f_equal; [apply Set_delete_idemp|].
    apply set_eq. intros x. rewrite !elem_of_difference. tauto.
  - apply not_elem_of_Set_delete.
  - apply Set_delete_notin.
  - intros Hset Harmed. f_equal; [by apply Set_delete_notin|].
    apply set_eq. intros x. rewrite elem_of_difference, elem_of_singleton.
    specialize (Harmed x). cbn in Harmed. split; [tauto|].
    intros Hx. split; [done|]. intros ->. tauto.
Qed.

(** On the three subscribed streams: closing stream 2 twice removes it once,
    and closing a stream that never subscribed changes nothing. *)
Lemma on_close_idempotent_witness :
  let '(r1, s1) := handle (on_close 2%nat) three_streams in
  let '(r2, s2) := handle (on_close 2%nat) s1 in
  let '(r3, s3) := handle (on_close 7%nat) three_streams in
  r1 = Normal () ∧ r2 = Normal () ∧ r3 = Normal ()
  ∧ sseClients s1 = [1; 3]%nat ∧ s2 = s1 ∧ s3 = three_streams.
Proof.
  pose proof (on_close_idempotent 2%nat three_streams) as H2.
  pose proof (on_close_idempotent 7%nat three_streams) as H7.
  destruct (handle (on_close 2%nat) three_streams) as [r1 s1] eqn:E1.
  destruct (handle (on_close 2%nat) s1) as [r2 s2].
  destruct (handle (on_close 7%nat) three_streams) as [r3 s3].
  destruct (handle (on_close 7%nat) s3) as [r4 s4].
  destruct H2 as (-> & -> & -> & _). destruct H7 as (-> & _ & _ & _ & _ & H7).
  repeat split.
  - injection E1 as <-. reflexivity.
  - apply H7; [apply (bool_decide_unpack _); vm_compute; exact I|].
    unfold three_streams. cbn [foldl].
    repeat apply step_registered_armed. intros c. cbn. set_solver.
Defined.

(** *** Ledger *)








Lemma take_Z_min {A} (n : nat) (l : list A) :
  take (Z.to_nat (Z.min (Z.of_nat n) (Z.of_nat (length l)))) l = take n l.
Proof.
  destruct (decide (n ≤ length l)%nat).
  - f_equal. lia.
  - rewrite !take_ge by lia. done.
Qed.


Lemma recent_200 (limit : number) (records : list payment) :
  Math_min limit (of_Z 200) = of_Z 200 →
  recent limit records = take 200 (Array_sort by_ts_desc records).
Proof.
  intros Hmin. unfold recent. rewrite Hmin, Array_slice_0.
  cbn [ToIntegerOrInfinity of_Z]. rewrite Qtrunc_inject_Z. cbn [relative_index].
  replace (200 <? 0) with false by reflexivity.
  apply (take_Z_min 200).
Qed.




Lemma length_filter_Forall {A} (P : A → Prop) `{!∀ x, Decision (P x)} (l : list A) :
  Forall P l → length (filter P l) = length l.
Proof.
  induction 1 as [|x l Hx Hl IH]; [done|].
  rewrite filter_cons_True by done. simpl. by rewrite IH.
Qed.

(** A record is within the first [n] of the ordering when fewer than [n]
    records are at least as new as it, itself apart. *)
Lemma elem_of_take_Array_sort (n : nat) (x : payment) (l : list payment) :
  (length (filter (λ p, not_older p x) l) < n)%nat →
  x ∈ take n (Array_sort by_ts_desc (l ++ [x])).
Proof.
  intros Hcount.
  assert (x ∈ Array_sort by_ts_desc (l ++ [x])) as Hin.
  { rewrite Array_sort_perm. set_solver. }
  apply list_elem_of_split in Hin as (before & after & Hsplit).
  pose proof (Array_sort_sorted (l ++ [x])) as Hsorted.
  rewrite Hsplit in Hsorted.
  assert (Forall (λ p, not_older p x) before) as Hbefore.
  { clear -Hsorted. induction before as [|y before IH]; [constructor|].
    simpl in Hsorted. apply StronglySorted_inv in Hsorted as [Hrest Hy].
    constructor; [|by apply IH].
    apply Forall_app in Hy as [_ Hy]. by apply Forall_cons in Hy as [Hy _]. }
  assert (length before < n)%nat as Hlen.
  { assert (length (filter (λ p, not_older p x) (Array_sort by_ts_desc (l ++ [x])))
            = S (length (filter (λ p, not_older p x) l))) as Hperm.
    { rewrite Array_sort_perm, filter_app, length_app.
      rewrite (filter_cons_True _ x) by (unfold not_older; lia). simpl. lia. }
    rewrite Hsplit, filter_app, length_app in Hperm.
    rewrite (length_filter_Forall _ before Hbefore) in Hperm.
    rewrite (filter_cons_True _ x) in Hperm by (unfold not_older; lia).
    simpl in Hperm. lia. }
  rewrite Hsplit, take_app.
  apply elem_of_app. right.
  destruct (n - length before)%nat as [|k] eqn:Hk; [lia|]. simpl. left.
Qed.

(** C8, as stated, fails: on a server where two hundred payments carry the
    timestamp of the new one, the append grows the ledger by that record,
    and the listing with an infinite limit, capped at 200, does not include
    it. *)
Lemma ledger_counterexample :
  let s' := (handle (post_payments healthy (Valid test_value) 1000) busy_millisecond).2 in
  payments s' = payments busy_millisecond ++ [test_entry 1000]
  ∧ length (payments s') = 204%nat
  ∧ Number (QStr "Infinity") = PosInf
  ∧ ∃ out,
      (handle (get_payments (Some (QStr "Infinity"))) s').1
      = Normal (res_json (Payments out))
      ∧ length out = 200%nat
      ∧ test_entry 1000 ∉ out.
Proof.
  split; [vm_compute; reflexivity|]. split; [vm_compute; reflexivity|].
  split; [reflexivity|].
  exists (replicate 200 {| name := "Earlier"; pay_method := QR; amount := 15; ts := 1000 |}).
  split; [vm_compute; reflexivity|]. split; [reflexivity|].
  intros Hin. apply elem_of_replicate_inv in Hin. discriminate Hin.
Qed.

(** C8 (amended): the listing leaves the server's state, the stored records
    and their order included, as it was; a valid submission appends exactly
    one record at the end of the ledger, whatever the broadcast that
    follows meets, so the count grows by one; that record is in a later
    listing with an infinite limit whenever fewer than 200 of the records
    already stored are at least as new as it; and no request of any kind
    removes or reorders a stored record. *)
Theorem ledger_monotonic `{R : Runtime} (w : world) (e : env) (s : server) :
  (∀ limit_param, (handle (get_payments limit_param) s).2 = s)
  ∧ (∀ value now,
       let entry := {| name := fullName value; pay_method := value_method value;
                       amount := value_amount value; ts := now |} in
       let s' := (handle (post_payments w (Valid value) now) s).2 in
       payments s' = payments s ++ [entry]
       ∧ length (payments s') = S (length (payments s))
       ∧ ∀ v : qval,
           Number v = PosInf →
           (length (filter (λ p, not_older p entry) (payments s)) < 200)%nat →
           ∃ out,
             handle (get_payments (Some v)) s' = (Normal (res_json (Payments out)), s')
             ∧ entry ∈ out)
  ∧ (∀ r, payments s `prefix_of` payments (step w e r s)).
Proof.
  split; [|split].
  - intros limit_param. by rewrite get_payments_run.
  - intros value now entry s'.
    assert (payments s' = payments s ++ [entry]) as Hs'.
    { unfold s'. rewrite post_payments_run. reflexivity. }
    split; [exact Hs'|]. split; [rewrite Hs', length_app; simpl; lia|].
    intros v Hv Hcount. eexists. split; [apply get_payments_run|].
    assert (Number_limit_or_25 (Some v) = PosInf) as ->.
    { unfold Number_limit_or_25. destruct (qval_truthy v) eqn:Ht; [done|].
      destruct v as [[|a s0]| |]; try discriminate Ht.
      unfold Number in Hv. cbn in Hv. rewrite StringToNumber_empty in Hv. discriminate Hv. }
    rewrite (recent_200 PosInf) by reflexivity. rewrite Hs'.
    by apply elem_of_take_Array_sort.
  - intros r. apply step_payments.
Qed.

(** A payment confirmed on the freshly loaded server is in the next listing
    with the limit "Infinity". *)
Lemma ledger_monotonic_witness :
  let s' := (handle (post_payments healthy (Valid test_value) 1000) (initial 1000 1000 1000)).2 in
  (handle (get_payments None) (initial 1000 1000 1000)).2 = initial 1000 1000 1000
  ∧ length (payments s') = 4%nat
  ∧ ∃ out,
      handle (get_payments (Some (QStr "Infinity"))) s'
      = (Normal (res_json (Payments out)), s')
      ∧ test_entry 1000 ∈ out.
Proof.
  destruct (ledger_monotonic healthy no_env (initial 1000 1000 1000)) as (Hpure & Happend & _).
  split; [apply Hpure|].
  destruct (Happend test_value 1000) as (_ & Hlen & Hin).
  split; [exact Hlen|].
  apply (Hin (QStr "Infinity")); [reflexivity|].
  vm_compute. lia.
Defined.

(** *** Merchant session validator *)

(** C5: while the feature flag is off, every validation request is
    answered 501, and the server's state, the record of file reads and
    outbound calls included, is left as it was. *)
Theorem validate_session_when_disabled `{R : Runtime} (w : world) (e : env)
    (req_body : option jsval) (s : server) :
  APPLE_ENABLED e = false →
  ∃ r,
    handle (validate_session w e req_body) s = (Normal r, s)
    ∧ status r = 501
    ∧ payload r = Error "Apple Pay validation disabled on this server.".
Proof.
  intros He. eexists. split; [by apply validate_session_disabled|]. by split.
Qed.

(** With no variable set, a request that carries a validation URL. *)
Lemma validate_session_when_disabled_witness :
  ∃ r,
    handle (validate_session healthy no_env session_request) no_traffic
    = (Normal r, no_traffic)
    ∧ status r = 501.
Proof.
  destruct (validate_session_when_disabled healthy no_env
              session_request no_traffic) as (r & Hrun & Hstatus & _); [reflexivity|].
  exists r. split; [exact Hrun|exact Hstatus].
Defined.

(** C7, as stated, fails on two requests.  One without a validation URL
    that arrives while the feature flag is off is answered 501, not 400.
    And one whose validation URL is an empty array, with the flag on and the
    merchant configured, is not rejected as a bad request: an empty array is
    truthy, so the handler goes on and reads the certificate. *)
Lemma missing_url_counterexample :
  APPLE_ENABLED no_env = false
  ∧ truthy (optional_get empty_request "validationURL") = false
  ∧ handle (validate_session healthy no_env empty_request) no_traffic
    = (Normal (res_status_json 501 (Error "Apple Pay validation disabled on this server.")),
       no_traffic)
  ∧ optional_get empty_array_request "validationURL" = Some (JArr [])
  ∧ ∃ r s',
      handle (validate_session healthy merchant_env empty_array_request) no_traffic
      = (Normal r, s')
      ∧ status r ≠ 400
      ∧ head (effects s') = Some (ReadFile "/etc/sasa/merchant.pem").
Proof.
  split; [reflexivity|]. split; [reflexivity|]. split; [reflexivity|].
  split; [reflexivity|]. eexists _, _. split; [reflexivity|].
  split; [discriminate|reflexivity].
Qed.

(** C7 (amended): a request whose body has no [validationURL], or a falsy
    one, is answered before any file is read and before any outbound call,
    the server's state, the record of effects included, being left as it
    was: with 400 while the feature flag is on, and with 501 while it is
    off. *)
Theorem validate_session_missing_url `{R : Runtime} (w : world) (e : env)
    (req_body : option jsval) (s : server) :
  truthy (optional_get req_body "validationURL") = false →
  ∃ r,
    handle (validate_session w e req_body) s = (Normal r, s)
    ∧ (APPLE_ENABLED e = true →
       status r = 400 ∧ payload r = Error "Missing validationURL")
    ∧ (APPLE_ENABLED e = false →
       status r = 501
       ∧ payload r = Error "Apple Pay validation disabled on this server.").
Proof.
  intros Hu. destruct (APPLE_ENABLED e) eqn:He.
  - eexists. split; [by apply validate_session_no_url|]. by split.
  - eexists. split; [by apply validate_session_disabled|]. by split.
Qed.

(** A request with an empty object as body: with the merchant configured,
    and with no variable set. *)
Lemma validate_session_missing_url_witness :
  (∃ r,
      handle (validate_session healthy merchant_env empty_request) no_traffic
      = (Normal r, no_traffic)
      ∧ status r = 400)
  ∧ (∃ r,
        handle (validate_session healthy no_env empty_request) no_traffic
        = (Normal r, no_traffic)
        ∧ status r = 501).
Proof.
  split.
  - destruct (validate_session_missing_url healthy merchant_env empty_request no_traffic)
      as (r & Hrun & Hon & _); [reflexivity|].
    exists r. split; [exact Hrun|]. by apply Hon.
  - destruct (validate_session_missing_url healthy no_env empty_request no_traffic)
      as (r & Hrun & _ & Hoff); [reflexivity|].
    exists r. split; [exact Hrun|]. by apply Hoff.
Defined.

(** C6, as stated, fails: with the feature on and no merchant variable set,
    a request without a validation URL is answered 400 (missing URL), not
    with the configuration error. *)
Lemma unconfigured_counterexample :
  APPLE_ENABLED enabled_only = true
  ∧ MERCHANT_ID enabled_only = None
  ∧ handle (validate_session healthy enabled_only empty_request) no_traffic
    = (Normal (res_status_json 400 (Error "Missing validationURL")), no_traffic).
Proof. repeat split. Qed.

Lemma absent_config_missing (e : env) :
  MERCHANT_ID e = None ∨ MERCHANT_DOMAIN e = None
  ∨ MERCHANT_DISPLAY_NAME e = None ∨ MERCHANT_CERT_PATH e = None →
  config_missing e = true.
Proof.
  unfold config_missing. intros [H|[H|[H|H]]]; rewrite H; cbn [not_set];
    rewrite ?orb_true_r; reflexivity.
Qed.

(** C6 (amended): while the feature flag is on and a merchant variable is
    absent, a request is answered without any file read and without any
    outbound call, the server's state being left as it was; the answer is
    the configuration error (500) when the request carries a validation URL,
    and the missing-URL error (400) when it does not. *)
Theorem validate_session_config_absent `{R : Runtime} (w : world) (e : env)
    (req_body : option jsval) (s : server) :
  APPLE_ENABLED e = true →
  MERCHANT_ID e = None ∨ MERCHANT_DOMAIN e = None
  ∨ MERCHANT_DISPLAY_NAME e = None ∨ MERCHANT_CERT_PATH e = None →
  handle (validate_session w e req_body) s
  = (Normal (if truthy (optional_get req_body "validationURL")
             then res_status_json 500 (Error "Merchant config missing.")
             else res_status_json 400 (Error "Missing validationURL")),
     s).
Proof.
  intros He Habsent. apply absent_config_missing in Habsent.
  destruct (truthy (optional_get req_body "validationURL")) eqn:Hu.
  - by apply validate_session_unconfigured.
  - by apply validate_session_no_url.
Qed.

(** With the feature on and no merchant variable set, a request that carries
    a validation URL. *)
Lemma validate_session_config_absent_witness :
  handle (validate_session healthy enabled_only session_request) no_traffic
  = (Normal (res_status_json 500 (Error "Merchant config missing.")), no_traffic).
Proof.
  apply (validate_session_config_absent healthy enabled_only session_request no_traffic).
  - reflexivity.
  - left. reflexivity.
Defined.

Lemma string_or_nonempty (t d : string) : t ≠ EmptyString → string_or t d = t.
Proof. destruct t; [done|reflexivity]. Qed.

(** C3, as stated, fails: when the remote end answers 403 with an empty
    body, the caller is given 403 with the text "Apple error", which is not
    the body received; when the remote end answers 503 and its body cannot
    be read, the caller is given 500 with the generic failure text; and when
    the remote end answers 304, the caller is given 304 with no body at
    all. *)
Lemma relay_counterexample :
  let forbidden := {| up_status := 403; up_text := Fulfilled EmptyString |} in
  let cut_off := {| up_status := 503; up_text := Rejected |} in
  let not_modified := {| up_status := 304; up_text := Fulfilled EmptyString |} in
  ok forbidden = false ∧ ok cut_off = false ∧ ok not_modified = false
  ∧ (handle (validate_session (world_answering (Fulfilled forbidden)) merchant_env
               session_request) no_traffic).1
    = Normal (res_status_json 403 (Error "Apple error"))
  ∧ (handle (validate_session (world_answering (Fulfilled cut_off)) merchant_env
               session_request) no_traffic).1
    = Normal (res_status_json 500 (Error "Validation request failed."))
  ∧ ∃ r,
      (handle (validate_session (world_answering (Fulfilled not_modified)) merchant_env
                 session_request) no_traffic).1 = Normal r
      ∧ status r = 304
      ∧ wire r = EmptyString.
Proof.
  repeat split. eexists. repeat split.
Qed.

(** C3 (amended): when the call goes out and the remote end answers with a
    final status that is not a success (from 300 to 999) and a body that can
    be read, the caller is given that same status and an error object whose
    message is the body text as received when that text is not empty, and
    "Apple error" when it is empty.  That object, serialised, is the body
    the caller receives at every such status but 304, where the response
    goes out without a body.  One file read and one outbound call are
    recorded. *)
Theorem validate_session_relays_failure `{R : Runtime} (w : world) (e : env)
    (req_body : option jsval) (s : server) (cert : string) (up : upstream)
    (t : string) :
  APPLE_ENABLED e = true →
  truthy (optional_get req_body "validationURL") = true →
  config_missing e = false →
  readFileSync w (the (MERCHANT_CERT_PATH e)) = Some cert →
  fetch w (optional_get req_body "validationURL")
    (JSON_stringify (merchant_payload e)) cert = Fulfilled up →
  ok up = false →
  200 ≤ up_status up ≤ 999 →
  up_text up = Fulfilled t →
  ∃ r s',
    handle (validate_session w e req_body) s = (Normal r, s')
    ∧ status r = up_status up
    ∧ payload r = Error (string_or t "Apple error")
    ∧ (t ≠ EmptyString → payload r = Error t)
    ∧ (up_status up ≠ 304 →
       wire r = JSON_stringify (body_to_js (Error (string_or t "Apple error"))))
    ∧ (up_status up = 304 → wire r = EmptyString)
    ∧ effects s'
      = effects s ++ [ReadFile (the (MERCHANT_CERT_PATH e));
                      Outbound (optional_get req_body "validationURL")
                        (JSON_stringify (merchant_payload e)) cert].
Proof.
  intros He Hu Hc Hf Hup Hok Hvalid Ht.
  rewrite (validate_session_answered w e req_body s cert up He Hu Hc Hf Hup).
  rewrite Ht, Hok.
  replace ((100 <=? up_status up) && (up_status up <=? 999)) with true
    by (symmetry; apply andb_true_iff; split; apply Z.leb_le; lia).
  eexists _, _. split; [reflexivity|].
  unfold wire. cbn [status payload res_status_json].
  split; [done|]. split; [done|]. split; [intros Hne; by rewrite string_or_nonempty|].
  assert (300 ≤ up_status up) as H300.
  { unfold ok in Hok. apply andb_false_iff in Hok as [Hok|Hok]; lia. }
  split; [|split; [|done]].
  - intros H304. replace (has_body (up_status up)) with true; [done|].
    symmetry. unfold has_body. rewrite !andb_true_iff, !negb_true_iff.
    repeat split; [apply andb_false_iff; right|..]; lia.
  - intros ->. reflexivity.
Qed.

(** The remote end answers 403 with the body "denied". *)
Lemma validate_session_relays_failure_witness :
  ∃ r s',
    handle (validate_session
              (world_answering (Fulfilled {| up_status := 403; up_text := Fulfilled "denied" |}))
              merchant_env session_request) no_traffic
    = (Normal r, s')
    ∧ status r = 403
    ∧ payload r = Error "denied"
    ∧ wire r = JSON_stringify (body_to_js (Error "denied")).
Proof.
  destruct (validate_session_relays_failure
              (world_answering (Fulfilled {| up_status := 403; up_text := Fulfilled "denied" |}))
              merchant_env session_request no_traffic "PEM"
              {| up_status := 403; up_text := Fulfilled "denied" |} "denied")
    as (r & s' & Hrun & Hstatus & _ & Hpayload & Hwire & _);
    [reflexivity..|cbn; lia|reflexivity|].
  exists r, s'. split; [exact Hrun|]. split; [exact Hstatus|].
  split; [by apply Hpayload|]. by apply Hwire.
Defined.

(** C4, as stated, fails: a successful answer whose body is not a JSON
    document (here the empty body) is turned into the generic 500; and a
    successful answer whose body is a JSON document written with blanks
    reaches the caller without them. *)
Lemma verbatim_counterexample :
  let empty := {| up_status := 200; up_text := Fulfilled EmptyString |} in
  let spaced := {| up_status := 200;
                   up_text := Fulfilled ("{ " +:+ DQ +:+ "ok" +:+ DQ +:+ " : true }") |} in
  ok empty = true ∧ ok spaced = true
  ∧ (handle (validate_session (world_answering (Fulfilled empty)) merchant_env
               session_request) no_traffic).1
    = Normal (res_status_json 500 (Error "Validation request failed."))
  ∧ (∃ r,
        (handle (validate_session (world_answering (Fulfilled spaced)) merchant_env
                   session_request) no_traffic).1 = Normal r
        ∧ status r = 200
        ∧ wire r = ok_true
        ∧ Fulfilled (wire r) ≠ up_text spaced).
Proof.
  split; [reflexivity|]. split; [reflexivity|]. split; [reflexivity|].
  eexists. split; [reflexivity|]. split; [reflexivity|]. split; [reflexivity|].
  discriminate.
Qed.

(** C4 (amended): when the call goes out and the remote end answers with a
    status in 200..299 and a body that can be read, then, if the body parses
    as JSON, the caller is given status 200 and the parsed value serialised
    again, which is the body received whenever serialising the parsed value
    gives that body back, as it does for the body {"ok":true}; and if the
    body does not parse as JSON, the caller is given the generic 500. *)
Theorem validate_session_returns_session `{R : Runtime} (w : world) (e : env)
    (req_body : option jsval) (s : server) (cert : string) (up : upstream)
    (t : string) :
  APPLE_ENABLED e = true →
  truthy (optional_get req_body "validationURL") = true →
  config_missing e = false →
  readFileSync w (the (MERCHANT_CERT_PATH e)) = Some cert →
  fetch w (optional_get req_body "validationURL")
    (JSON_stringify (merchant_payload e)) cert = Fulfilled up →
  ok up = true →
  up_text up = Fulfilled t →
  ∃ r s',
    handle (validate_session w e req_body) s = (Normal r, s')
    ∧ (∀ session,
         JSON_parse t = Some session →
         status r = 200
         ∧ payload r = Json session
         ∧ wire r = JSON_stringify session
         ∧ (JSON_stringify session = t → wire r = t))
    ∧ (JSON_parse t = None →
       status r = 500
       ∧ payload r = Error "Validation request failed.").
Proof.
  intros He Hu Hc Hf Hup Hok Ht.
  rewrite (validate_session_answered w e req_body s cert up He Hu Hc Hf Hup).
  rewrite Ht, Hok. destruct (JSON_parse t) as [session|].
  - eexists _, _. split; [reflexivity|]. split; [|done].
    intros ? [= <-]. repeat split. intros Hback. exact Hback.
  - eexists _, _. split; [reflexivity|]. split; [done|]. by split.
Qed.

(** The remote end answers 200 with the body {"ok":true}, and with a body
    that is no JSON document. *)
Lemma validate_session_returns_session_witness :
  (∃ r s',
      handle (validate_session
                (world_answering (Fulfilled {| up_status := 200; up_text := Fulfilled ok_true |}))
                merchant_env session_request) no_traffic
      = (Normal r, s')
      ∧ status r = 200
      ∧ wire r = ok_true)
  ∧ (∃ r s',
        handle (validate_session
                  (world_answering (Fulfilled {| up_status := 200; up_text := Fulfilled "<html>" |}))
                  merchant_env session_request) no_traffic
        = (Normal r, s')
        ∧ status r = 500).
Proof.
  split.
  - destruct (validate_session_returns_session
                (world_answering (Fulfilled {| up_status := 200; up_text := Fulfilled ok_true |}))
                merchant_env session_request no_traffic "PEM"
                {| up_status := 200; up_text := Fulfilled ok_true |} ok_true)
      as (r & s' & Hrun & Hjson & _); [reflexivity..|].
    destruct (Hjson (JObj [("ok", JBool true)])) as (Hstatus & _ & _ & Hwire);
      [reflexivity|].
    exists r, s'. split; [exact Hrun|]. split; [exact Hstatus|].
    apply Hwire. reflexivity.
  - destruct (validate_session_returns_session
                (world_answering (Fulfilled {| up_status := 200; up_text := Fulfilled "<html>" |}))
                merchant_env session_request no_traffic "PEM"
                {| up_status := 200; up_text := Fulfilled "<html>" |} "<html>")
      as (r & s' & Hrun & _ & Hnone); [reflexivity..|].
    exists r, s'. split; [exact Hrun|]. by apply Hnone.
Defined.


(** * Further properties of the server *)

Ltac state_fields :=
  unfold with_contacts, with_payments, with_sseClients, with_keepAlive,
    with_sent, with_effects;
  cbn [contacts payments sseClients keepAlive sent effects fst snd].

(** ** Streams *)

Lemma keep_alive_exact `{R : Runtime} (w : world) (res : conn) (s : server) :
  handle (keep_alive w res) s
  = if bool_decide (res ∈ keepAlive s)
    then match transport_of w res with
         | Open => (Normal (), with_sent (λ m, <[res := m !!! res ++ [ping]]> m) s)
         | Destroyed => (Normal (), s)
         end
    else (Normal (), s).
Proof.
  unfold handle, keep_alive. unfold mbind at 1, M_bind at 1. cbn [gets srv].
  destruct (bool_decide (res ∈ keepAlive s)).
  - unfold mbind at 1, M_bind at 1. unfold res_write.
    destruct (transport_of w res); destruct s; reflexivity.
  - by destruct s.
Qed.

(** X1: the server writes to a stream only while it is registered.  For a
    stream that is neither in the Set nor has an armed interval (not yet
    subscribed, or closed), every request other than its own subscription
    leaves what was written to it unchanged, and leaves it unregistered. *)
Theorem unregistered_stream_is_silent `{R : Runtime} (w : world) (e : env)
    (res : conn) (r : request) (s : server) :
  res ∉ sseClients s →
  res ∉ keepAlive s →
  r ≠ GET_payments_stream res →
  sent (step w e r s) !!! res = sent s !!! res
  ∧ (res ∉ sseClients (step w e r s))
  ∧ (res ∉ keepAlive (step w e r s)).
Proof.
  intros Hset Htimer Hr. unfold step. destruct r as [| | | |c|c|c|]; cbn [serve];
    rewrite ?handle_fmap_snd, ?handle_then_snd.
  - done.
  - by destruct (post_contact_run validated now s) as (r & cs & ->).
  - destruct validated as [messages|value].
    + by rewrite post_payments_invalid.
    + rewrite post_payments_run. state_fields. split; [|done].
      by apply deliver_notin.
  - by rewrite get_payments_run.
  - assert (c ≠ res) as Hc by congruence.
    rewrite stream_run. destruct (transport_of w c); state_fields.
    + rewrite lookup_total_insert_ne by done. split; [done|].
      rewrite elem_of_Set_add, elem_of_union, elem_of_singleton. intuition congruence.
    + split; [done|].
      rewrite elem_of_Set_add, elem_of_union, elem_of_singleton. intuition congruence.
  - rewrite on_close_run. state_fields. split; [done|].
    rewrite elem_of_Set_delete, elem_of_difference. tauto.
  - rewrite keep_alive_exact. case_bool_decide as Harmed; [|done].
    assert (c ≠ res) as Hc by (intros ->; done).
    destruct (transport_of w c); state_fields; [|done].
    by rewrite lookup_total_insert_ne.
  - by destruct (validate_session_frame w e req_body s) as (r & effs & ->).
Qed.

(** After stream 2 of the three has closed, a confirmed payment reaches the
    other two and not stream 2. *)
Lemma unregistered_stream_is_silent_witness :
  let closed := step healthy no_env (Closed 2%nat) three_streams in
  let after := step healthy no_env (POST_payments (Valid test_value) 1000) closed in
  sent after !!! 2%nat = [hello]
  ∧ sent after !!! 3%nat
    = [hello; sse_payload "payment" (payment_to_js (test_entry 1000))].
Proof.
  intros closed after.
  destruct (unregistered_stream_is_silent healthy no_env 2%nat
              (POST_payments (Valid test_value) 1000) closed) as (Hsent & _).
  - apply (bool_decide_unpack _). vm_compute. exact I.
  - apply (bool_decide_unpack _). vm_compute. exact I.
  - discriminate.
  - split; [refine (eq_trans Hsent _)|]; vm_compute; reflexivity.
Defined.

(** X2: events reach every subscriber in publication order.  When every
    stream in the Set is open, two publishes in a row both return normally
    and append their two events, in that order, to what each stream in the
    Set had received; the streams outside the Set receive nothing. *)
Theorem publishes_arrive_in_order `{R : Runtime} (w : world) (s : server)
    (event1 event2 : string) (data1 data2 : jsval) :
  NoDup (sseClients s) →
  Forall (λ c, transport_of w c = Open) (sseClients s) →
  let '(r1, s1) := handle (broadcast w event1 data1) s in
  let '(r2, s2) := handle (broadcast w event2 data2) s1 in
  r1 = Normal () ∧ r2 = Normal ()
  ∧ ∀ c, sent s2 !!! c
         = if decide (c ∈ sseClients s)
           then sent s !!! c ++ [sse_payload event1 data1; sse_payload event2 data2]
           else sent s !!! c.
Proof.
  intros Hnd Hopen. rewrite !broadcast_run. cbn [with_sent sseClients sent].
  split; [done|]. split; [done|]. intros c.
  rewrite !deliver_lookup by done.
  destruct (decide (c ∈ sseClients s)) as [Hin|Hout].
  - rewrite Forall_forall in Hopen. rewrite !decide_True by auto.
    by rewrite <- app_assoc.
  - rewrite !decide_False by tauto. done.
Qed.

Lemma publishes_arrive_in_order_witness :
  let '(r1, s1) := handle (broadcast healthy "payment" JNull) three_streams in
  let '(r2, s2) := handle (broadcast healthy "payment" (JBool true)) s1 in
  r1 = Normal () ∧ r2 = Normal ()
  ∧ sent s2 !!! 3%nat
    = [hello; sse_payload "payment" JNull; sse_payload "payment" (JBool true)].
Proof.
  pose proof (publishes_arrive_in_order healthy three_streams "payment" "payment"
                JNull (JBool true)) as H.
  destruct (handle (broadcast healthy "payment" JNull) three_streams) as [r1 s1].
  destruct (handle (broadcast healthy "payment" (JBool true)) s1) as [r2 s2].
  destruct H as (H1 & H2 & Hsent).
  - apply (bool_decide_unpack _). vm_compute. exact I.
  - apply (bool_decide_unpack _). vm_compute. exact I.
  - split; [exact H1|]. split; [exact H2|]. rewrite Hsent. reflexivity.
Defined.
(** X3: what a subscription does.  The handler returns normally whatever the
    socket of the stream does.  The stream is in the Set afterwards, after
    every stream that was there (and only once), its interval is armed, the
    greeting is the one chunk written, to this stream if its socket is open,
    and the ledger is untouched. *)
Theorem subscription_outcome `{R : Runtime} (w : world) (res : conn) (s : server) :
  let '(r, s') := handle (stream w res) s in
  r = Normal ()
  ∧ sseClients s'
    = (if decide (res ∈ sseClients s) then sseClients s else sseClients s ++ [res])
  ∧ keepAlive s' = {[res]} ∪ keepAlive s
  ∧ payments s' = payments s
  ∧ ∀ c, sent s' !!! c
         = if decide (c = res ∧ transport_of w res = Open)
           then sent s !!! c ++ [hello]
           else sent s !!! c.
Proof.
  rewrite stream_run. destruct (transport_of w res) eqn:Ht.
  - state_fields. repeat split; try done.
    intros c. destruct (decide (c = res)) as [->|Hne].
    + rewrite decide_True by done. by rewrite lookup_total_insert_eq.
    + rewrite decide_False by tauto. by rewrite lookup_total_insert_ne.
  - state_fields. repeat split; try done.
    intros c. rewrite decide_False; [done|]. intros [_ ?]. done.
Qed.

(** A fourth viewer subscribes to the three. *)
Lemma subscription_outcome_witness :
  let '(r, s') := handle (stream healthy 4%nat) three_streams in
  r = Normal () ∧ sseClients s' = [1; 2; 3; 4]%nat ∧ sent s' !!! 4%nat = [hello].
Proof.
  pose proof (subscription_outcome healthy 4%nat three_streams) as H.
  destruct (handle (stream healthy 4%nat) three_streams) as [r s'].
  destruct H as (Hr & Hset & _ & _ & Hsent).
  split; [exact Hr|]. split; [exact Hset|]. exact (Hsent 4%nat).
Defined.

Lemma Set_delete_add_fresh (c : conn) (set : list conn) :
  c ∉ set → Set_delete c (Set_add c set) = set.
Proof.
  intros Hc. unfold Set_add. rewrite decide_False by done.
  unfold Set_delete. rewrite filter_app, filter_cons_False, filter_nil, app_nil_r by tauto.
  by apply Set_delete_notin.
Qed.

(** X4: subscribing and then closing is a round trip.  For a stream that was
    not registered, the close handler undoes the subscription: the Set
    (order included), the armed intervals, the ledger, the contacts and the
    record of effects are as before, and only the greeting written to that
    stream remains. *)
Theorem subscribe_then_close `{R : Runtime} (w w' : world) (e : env) (res : conn)
    (s : server) :
  res ∉ sseClients s →
  res ∉ keepAlive s →
  let s' := step w' e (Closed res) (step w e (GET_payments_stream res) s) in
  sseClients s' = sseClients s
  ∧ keepAlive s' = keepAlive s
  ∧ payments s' = payments s
  ∧ contacts s' = contacts s
  ∧ effects s' = effects s
  ∧ ∀ c, c ≠ res → sent s' !!! c = sent s !!! c.
Proof.
  intros Hset Htimer s'. unfold s', step. cbn [serve].
  rewrite !handle_then_snd, on_close_run, stream_run.
  assert (({[res]} ∪ keepAlive s) ∖ {[res]} = keepAlive s) as Hk.
  { apply set_eq. intros x.
    rewrite elem_of_difference, elem_of_union, elem_of_singleton.
    split; [tauto|]. intros Hx. split; [tauto|]. intros ->. done. }
  destruct (transport_of w res); state_fields;
    rewrite Set_delete_add_fresh, Hk by done; repeat split; try done.
  intros c Hc. by rewrite lookup_total_insert_ne.
Qed.

Lemma subscribe_then_close_witness :
  let s' := step healthy no_env (Closed 4%nat)
              (step healthy no_env (GET_payments_stream 4%nat) three_streams) in
  sseClients s' = [1; 2; 3]%nat ∧ keepAlive s' = keepAlive three_streams.
Proof.
  destruct (subscribe_then_close healthy healthy no_env 4%nat three_streams)
    as (Hset & Htimers & _).
  - apply (bool_decide_unpack _). vm_compute. exact I.
  - apply (bool_decide_unpack _). vm_compute. exact I.
  - split; [exact Hset|exact Htimers].
Defined.

(** ** Submissions *)

(** X5: a valid payment is stored, published and answered.  The record built
    from the validated fields and the clock is at the end of the ledger
    afterwards; the streams have been sent the event of that record, as the
    fan-out over the Set leaves them; and the handler answers 200 with the
    record, whatever the sockets of the streams do.  An invalid payment is
    answered 400 with the schema's messages and changes nothing. *)
Theorem payment_stored_before_published `{R : Runtime} (w : world)
    (value : payment_fields) (now : Z) (s : server) :
  let entry := {| name := fullName value; pay_method := value_method value;
                  amount := value_amount value; ts := now |} in
  let '(r, s') := handle (post_payments w (Valid value) now) s in
  payments s' = payments s ++ [entry]
  ∧ contacts s' = contacts s
  ∧ sseClients s' = sseClients s
  ∧ r = Normal (res_json (Payment entry))
  ∧ sent s'
    = deliver w (sse_payload "payment" (payment_to_js entry)) (sseClients s) (sent s)
  ∧ ∀ messages,
      handle (post_payments w (Invalid messages) now) s
      = (Normal (res_status_json 400 (Errors messages)), s).
Proof.
  intros entry. rewrite post_payments_run. fold entry. state_fields.
  repeat split.
Qed.

(** X6: the list of contacts changes only through a valid contact
    submission, and then by one entry.  A valid POST /api/contact adds, at
    the end of the list, one entry with the validated fields and the time of
    the request; every other request, an invalid submission included, leaves
    the list as it was. *)
Theorem contacts_grow_only_by_valid_contact `{R : Runtime} (w : world) (e : env)
    (r : request) (s : server) :
  contacts (step w e r s)
  = match r with
    | POST_contact (Valid value) now =>
        contacts s ++ [ {| contact_name := value_name value;
                           contact_email := value_email value;
                           contact_message := value_message value;
                           contact_ts := now |} ]
    | _ => contacts s
    end.
Proof.
  unfold step. destruct r as [|validated now|validated now| |c|c|c|]; cbn [serve];
    rewrite ?handle_fmap_snd, ?handle_then_snd.
  - done.
  - by destruct validated as [messages|value].
  - destruct validated as [messages|value].
    + by rewrite post_payments_invalid.
    + by rewrite post_payments_run.
  - by rewrite get_payments_run.
  - rewrite stream_run. by destruct (transport_of w c).
  - by rewrite on_close_run.
  - rewrite keep_alive_exact.
    case_bool_decide; [|done]. by destruct (transport_of w c).
  - by destruct (validate_session_frame w e req_body s) as (r & effs & ->).
Qed.

(** X7: the ledger changes only through a valid payment submission, and then
    by one record.  A valid POST /api/payments adds, at the end of the
    ledger, one record with the validated fields, stamped with the time of
    the request; every other request, an invalid submission included, leaves
    the stored records exactly as they were. *)
Theorem ledger_grows_only_by_valid_payment `{R : Runtime} (w : world) (e : env)
    (r : request) (s : server) :
  payments (step w e r s)
  = match r with
    | POST_payments (Valid value) now =>
        payments s ++ [ {| name := fullName value; pay_method := value_method value;
                           amount := value_amount value; ts := now |} ]
    | _ => payments s
    end.
Proof.
  unfold step. destruct r as [|validated now|validated now| |c|c|c|]; cbn [serve];
    rewrite ?handle_fmap_snd, ?handle_then_snd.
  - done.
  - by destruct (post_contact_run validated now s) as (r & cs & ->).
  - destruct validated as [messages|value].
    + by rewrite post_payments_invalid.
    + by rewrite post_payments_run.
  - by rewrite get_payments_run.
  - rewrite stream_run. by destruct (transport_of w c).
  - by rewrite on_close_run.
  - rewrite keep_alive_exact.
    case_bool_decide; [|done]. by destruct (transport_of w c).
  - by destruct (validate_session_frame w e req_body s) as (r & effs & ->).
Qed.

(** X8: in every state the server reaches from its load, whatever the three
    clock readings of the load were, the Set of streams holds no stream
    twice, the armed keep-alive intervals are exactly those of the streams
    in the Set, and the three payments seeded at load are still the first
    three records of the ledger, in their order. *)
Theorem reachable_invariants `{R : Runtime} (now1 now2 now3 : Z) (s : server) :
  reachable now1 now2 now3 s →
  NoDup (sseClients s)
  ∧ (∀ c, c ∈ keepAlive s ↔ c ∈ sseClients s)
  ∧ seed now1 now2 now3 `prefix_of` payments s.
Proof.
  intros Hs. destruct (reachable_wf now1 now2 now3 s Hs) as [Hnd Harmed].
  split; [done|]. split; [done|]. clear Hnd Harmed.
  induction Hs as [|w e r s Hs IH]; [done|].
  etrans; [exact IH|]. apply step_payments.
Qed.

(** The module is loaded while the clock ticks from 0 to 2, and a viewer
    subscribes. *)
Lemma reachable_invariants_witness :
  let s := step healthy no_env (GET_payments_stream 1%nat) (initial 0 1 2) in
  NoDup (sseClients s) ∧ seed 0 1 2 `prefix_of` payments s.
Proof.
  intros s. destruct (reachable_invariants 0 1 2 s) as (Hnd & _ & Hseed).
  - apply reachable_step, reachable_initial.
  - split; [exact Hnd|exact Hseed].
Defined.

(** ** The listing *)

Lemma Qtrunc_lower (n : Z) (q : Q) : (inject_Z n <= q)%Q → 0 ≤ n → n ≤ Qtrunc q.
Proof.
  destruct q as [a d]. unfold Qle, Qtrunc. simpl. intros Hq Hn.
  rewrite Z.mul_1_r in Hq.
  apply Z.quot_le_lower_bound; lia.
Qed.

Lemma Qtrunc_upper (n : Z) (q : Q) : (q <= inject_Z n)%Q → (0 <= q)%Q → Qtrunc q ≤ n.
Proof.
  intros Hq H0. rewrite Zle_Qle. eapply Qle_trans; [by apply Qtrunc_le|done].
Qed.

Lemma Qtrunc_negative (q : Q) : (q <= inject_Z (-1))%Q → Qtrunc q ≤ -1.
Proof.
  destruct q as [a d]. unfold Qle, Qtrunc. simpl. intros Hq.
  rewrite Z.mul_1_r in Hq.
  assert (1 ≤ Z.quot (- a) (Z.pos d)) by (apply Z.quot_le_lower_bound; lia).
  rewrite Z.quot_opp_l in H by lia. lia.
Qed.

(** The integer the slice ends at, for a limit that is not negative. *)
Lemma Qtrunc_Math_min_200 (q : Q) :
  (0 <= q)%Q →
  ∃ q', Math_min (Finite q) (of_Z 200) = Finite q'
        ∧ Qtrunc q' = Z.min (Qtrunc q) 200 ∧ (0 <= q')%Q.
Proof.
  intros Hq. cbn. destruct (Qle_bool q (inject_Z 200)) eqn:Hle.
  - exists q. split; [done|]. apply Qle_bool_iff in Hle.
    pose proof (Qtrunc_upper 200 q Hle Hq). split; [lia|done].
  - exists (inject_Z 200). split; [done|].
    assert (inject_Z 200 <= q)%Q as Hge.
    { destruct (Qlt_le_dec q (inject_Z 200)) as [Hlt|Hge]; [|done].
      apply Qlt_le_weak, Qle_bool_iff in Hlt. congruence. }
    pose proof (Qtrunc_lower 200 q Hge ltac:(lia)).
    rewrite Qtrunc_inject_Z. split; [lia|done].
Qed.

Lemma newest_sorts_first (x : payment) (l : list payment) :
  Forall (λ p, ts p < ts x) l →
  Array_sort by_ts_desc (l ++ [x]) = x :: Array_sort by_ts_desc l.
Proof.
  induction 1 as [|y l Hy Hl IH]; [done|].
  simpl. rewrite IH. simpl. unfold by_ts_desc at 1.
  destruct (Z.leb_spec (ts x - ts y) 0); [lia|done].
Qed.


(** X9: a payment confirmed at a time later than every stored timestamp
    heads the next listing, for every limit whose conversion is at least 1,
    the infinite limit and the default included; with a limit that
    truncates to 1 it is the whole listing. *)
Theorem new_payment_heads_listing `{R : Runtime} (w : world) (value : payment_fields)
    (now : Z) (limit_param : option qval) (s : server) :
  (∀ p, p ∈ payments s → ts p < now) →
  at_least_one (Number_limit_or_25 limit_param) →
  let entry := {| name := fullName value; pay_method := value_method value;
                  amount := value_amount value; ts := now |} in
  let s' := (handle (post_payments w (Valid value) now) s).2 in
  ∃ rest,
    handle (get_payments limit_param) s'
    = (Normal (res_json (Payments (entry :: rest))), s')
    ∧ (∀ q, Number_limit_or_25 limit_param = Finite q → Qtrunc q = 1 → rest = []).
Proof.
  intros Hnew Hlimit entry s'.
  assert (payments s' = payments s ++ [entry]) as Hs'.
  { unfold s'. by rewrite post_payments_run. }
  rewrite get_payments_run, Hs'.
  destruct (Number_limit_or_25 limit_param) as [| | |q]; try done.
  - rewrite (recent_200 PosInf) by reflexivity.
    rewrite newest_sorts_first by (apply Forall_forall; exact Hnew).
    eexists. split; [reflexivity|]. intros q [=].
  - unfold recent.
    rewrite newest_sorts_first by (apply Forall_forall; exact Hnew).
    cbn [at_least_one] in Hlimit.
    assert (0 <= q)%Q as H0 by (eapply Qle_trans; [|exact Hlimit]; done).
    destruct (Qtrunc_Math_min_200 q H0) as (q' & -> & Htrunc & H0').
    rewrite Array_slice_0. cbn [ToIntegerOrInfinity relative_index].
    pose proof (Qtrunc_lower 1 q Hlimit ltac:(lia)) as H1.
    replace (Qtrunc q' <? 0) with false by (symmetry; apply Z.ltb_ge; lia).
    cbn [length]. rewrite Htrunc.
    set (len := length (Array_sort by_ts_desc (payments s))).
    destruct (Z.to_nat (Z.min (Z.min (Qtrunc q) 200) (Z.of_nat (S len)))) as [|n] eqn:Hn;
      [lia|].
    cbn [take]. eexists. split; [reflexivity|].
    intros ? [= <-] Hone. assert (n = 0%nat) as -> by lia. done.
Qed.

(** The scenario of one payment on the freshly loaded server, listed with
    the limit 1, and with the limit Infinity. *)
Lemma new_payment_heads_listing_witness :
  let s' := (handle (post_payments healthy (Valid test_value) 1000)
               (initial 1000 1000 1000)).2 in
  handle (get_payments (Some (QStr "1"))) s'
  = (Normal (res_json (Payments [test_entry 1000])), s')
  ∧ ∃ rest,
      handle (get_payments (Some (QStr "Infinity"))) s'
      = (Normal (res_json (Payments (test_entry 1000 :: rest))), s').
Proof.
  intros s'.
  assert (∀ p, p ∈ payments (initial 1000 1000 1000) → ts p < 1000) as Hnew.
  { intros p Hp. vm_compute in Hp.
    repeat (apply elem_of_cons in Hp as [->|Hp]; [reflexivity|]).
    by apply elem_of_nil in Hp. }
  split.
  - destruct (new_payment_heads_listing healthy test_value 1000 (Some (QStr "1"))
                (initial 1000 1000 1000) Hnew) as (rest & Hrun & Hrest).
    + vm_compute. discriminate.
    + rewrite (Hrest (inject_Z 1) eq_refl eq_refl) in Hrun. exact Hrun.
  - destruct (new_payment_heads_listing healthy test_value 1000 (Some (QStr "Infinity"))
                (initial 1000 1000 1000) Hnew) as (rest & Hrun & _).
    + exact I.
    + exists rest. exact Hrun.
Defined.




(** X12: a negative limit counts from the end.  For a limit whose conversion
    is a number [q] at most -1, the listing is not capped: it is the
    ordering without its last -trunc q records, so it holds
    count + trunc q records (none when that is negative), even when this
    exceeds 200. *)
Theorem negative_limit_drops_oldest `{R : Runtime} (limit_param : option qval)
    (q : Q) (s : server) :
  Number_limit_or_25 limit_param = Finite q →
  (q <= inject_Z (-1))%Q →
  ∃ out,
    handle (get_payments limit_param) s = (Normal (res_json (Payments out)), s)
    ∧ out = take (length (payments s) - Z.to_nat (- Qtrunc q))
              (Array_sort by_ts_desc (payments s))
    ∧ Z.of_nat (length out) = Z.max (Z.of_nat (length (payments s)) + Qtrunc q) 0.
Proof.
  intros Hlimit Hq. pose proof (Qtrunc_negative q Hq) as Hneg.
  assert (Math_min (Finite q) (of_Z 200) = Finite q) as Hmin.
  { cbn. replace (Qle_bool q (inject_Z 200)) with true; [done|].
    symmetry. apply Qle_bool_iff. eapply Qle_trans; [exact Hq|]. done. }
  assert (recent (Finite q) (payments s)
          = take (length (payments s) - Z.to_nat (- Qtrunc q))
              (Array_sort by_ts_desc (payments s))) as Hrecent.
  { unfold recent. rewrite Hmin, Array_slice_0.
    cbn [ToIntegerOrInfinity relative_index].
    replace (Qtrunc q <? 0) with true by (symmetry; apply Z.ltb_lt; lia).
    rewrite (Permutation_length (Array_sort_perm by_ts_desc (payments s))).
    f_equal. lia. }
  eexists. split; [rewrite get_payments_run, Hlimit; reflexivity|].
  split; [exact Hrecent|].
  rewrite Hrecent, length_take,
    (Permutation_length (Array_sort_perm by_ts_desc (payments s))). lia.
Qed.

(** With the limit -1 on a ledger of 203 records: 202 are listed. *)
Lemma negative_limit_drops_oldest_witness :
  ∃ out,
    handle (get_payments (Some (QStr "-1"))) busy_millisecond
    = (Normal (res_json (Payments out)), busy_millisecond)
    ∧ length (payments busy_millisecond) = 203%nat
    ∧ length out = 202%nat.
Proof.
  destruct (negative_limit_drops_oldest (Some (QStr "-1")) (- inject_Z 1) busy_millisecond)
    as (out & Hrun & _ & Hlen); [reflexivity|apply Qle_refl|].
  exists out. split; [exact Hrun|].
  assert (length (payments busy_millisecond) = 203%nat) as Hcount
    by (vm_compute; reflexivity).
  split; [exact Hcount|]. rewrite Hcount in Hlen.
  change (Qtrunc (- inject_Z 1)) with (-1) in Hlen. lia.
Defined.

(** X13: the edge values of the limit parameter.  A limit given as the empty
    string is treated as no limit at all (the default 25 applies), while any
    other value whose conversion truncates to zero, such as "0", gives an
    empty listing rather than the default. *)
Theorem limit_empty_and_zero `{R : Runtime} (s : server) :
  handle (get_payments (Some (QStr EmptyString))) s = handle (get_payments None) s
  ∧ ∀ v q,
      qval_truthy v = true →
      Number v = Finite q →
      Qtrunc q = 0 →
      handle (get_payments (Some v)) s = (Normal (res_json (Payments [])), s).
Proof.
  split; [by rewrite !get_payments_run|].
  intros v q Hv Hq Hzero. rewrite get_payments_run. cbn [Number_limit_or_25].
  rewrite Hv, Hq. unfold recent.
  assert (ToIntegerOrInfinity (Math_min (Finite q) (of_Z 200)) = Int 0) as Hint.
  { cbn. destruct (Qle_bool q (inject_Z 200)) eqn:Hle; cbn; [by rewrite Hzero|].
    exfalso. assert (q <= inject_Z 200)%Q; [|by apply Qle_bool_iff in H; congruence].
    destruct (Qlt_le_dec q (inject_Z 200)) as [Hlt|Hge]; [by apply Qlt_le_weak|].
    pose proof (Qtrunc_lower 200 q Hge ltac:(lia)). lia. }
  rewrite Array_slice_0, Hint. cbn [relative_index].
  replace (0 <? 0) with false by reflexivity.
  rewrite Z.min_l by lia. done.
Qed.

Lemma limit_empty_and_zero_witness :
  handle (get_payments (Some (QStr "0"))) (initial 0 0 0)
  = (Normal (res_json (Payments [])), initial 0 0 0).
Proof.
  destruct (limit_empty_and_zero (initial 0 0 0)) as [_ Hzero].
  apply (Hzero (QStr "0") (inject_Z 0)); reflexivity.
Defined.

(** ** The merchant-validation proxy, path by path *)

Ltac refute_silence :=
  intros [(? & ? & ?) (? & ? & ?)];
  repeat match goal with
    | H : _ ∨ _ |- _ => destruct H
    | H : ∃ _, _ |- _ => destruct H
    | H : _ ∧ _ |- _ => destruct H
    end;
  congruence.

Lemma validation_outcome `{R : Runtime} (w : world) (e : env)
    (req_body : option jsval) (s : server) :
  ∃ c effs,
    handle (validate_session w e req_body) s = (c, with_effects (λ l, l ++ effs) s)
    ∧ validation_effects w e req_body effs
    ∧ match c with
      | Normal _ => ¬ (goes_out e req_body ∧ never_settles w e req_body)
      | Throw _ => False
      | Suspended => goes_out e req_body ∧ never_settles w e req_body
      end.
Proof.
  destruct (APPLE_ENABLED e) eqn:He.
  2: { eexists _, []. rewrite with_effects_nil.
       split; [by apply validate_session_disabled|]. split; [constructor|].
       intros [(? & ? & ?) _]. congruence. }
  destruct (truthy (optional_get req_body "validationURL")) eqn:Hu.
  2: { eexists _, []. rewrite with_effects_nil.
       split; [by apply validate_session_no_url|]. split; [constructor|].
       intros [(? & ? & ?) _]. congruence. }
  destruct (config_missing e) eqn:Hc.
  { eexists _, []. rewrite with_effects_nil.
    split; [by apply validate_session_unconfigured|]. split; [constructor|].
    intros [(? & ? & ?) _]. congruence. }
  destruct (readFileSync w (the (MERCHANT_CERT_PATH e))) as [cert|] eqn:Hf.
  2: { eexists _, _. split; [by apply validate_session_unreadable|].
       split; [constructor|]. refute_silence. }
  destruct (validate_session_unanswered w e req_body s cert He Hu Hc Hf)
    as [Hrejected Hnever].
  destruct (fetch w (optional_get req_body "validationURL")
              (JSON_stringify (merchant_payload e)) cert) as [up| |] eqn:Hup.
  - rewrite (validate_session_answered w e req_body s cert up) by done.
    destruct (up_text up) as [t| |] eqn:Ht;
      [destruct (ok up);
       [destruct (JSON_parse t)
       |destruct ((100 <=? up_status up) && (up_status up <=? 999))]| |];
      eexists _, _; (split; [reflexivity|]).
    + split; [apply (effects_called w e req_body cert []); auto|refute_silence].
    + split; [apply (effects_called w e req_body cert [ConsoleError SyntaxError]); eauto
             |refute_silence].
    + split; [apply (effects_called w e req_body cert []); auto|refute_silence].
    + split; [apply (effects_called w e req_body cert [ConsoleError RangeError]); eauto
             |refute_silence].
    + split; [apply (effects_called w e req_body cert [ConsoleError BodyError]); eauto
             |refute_silence].
    + split; [apply (effects_called w e req_body cert []); auto|].
      split; [done|]. exists cert. split; [done|]. right. by exists up.
  - rewrite Hrejected by done. eexists _, _. split; [reflexivity|].
    split; [apply (effects_called w e req_body cert [ConsoleError FetchError]); eauto
           |refute_silence].
  - rewrite Hnever by done. eexists _, _. split; [reflexivity|].
    split; [apply (effects_called w e req_body cert []); auto|].
    split; [done|]. exists cert. split; [done|]. by left.
Qed.

Lemma validation_outbound `{R : Runtime} (w : world) (e : env)
    (req_body : option jsval) (effs : list effect) (u : option jsval) (b c : string) :
  validation_effects w e req_body effs →
  Outbound u b c ∈ effs →
  readFileSync w (the (MERCHANT_CERT_PATH e)) = Some c
  ∧ u = optional_get req_body "validationURL"
  ∧ b = JSON_stringify (merchant_payload e).
Proof.
  intros [| |cert logged Hcert Hlogged] Hin.
  - by apply elem_of_nil in Hin.
  - repeat (apply elem_of_cons in Hin as [Hin|Hin]; [discriminate Hin|]).
    by apply elem_of_nil in Hin.
  - apply elem_of_app in Hin as [Hin|Hin].
    + apply elem_of_cons in Hin as [Hin|Hin]; [discriminate Hin|].
      apply list_elem_of_singleton in Hin. by injection Hin as -> -> ->.
    + destruct Hlogged as [->|[x ->]]; [by apply elem_of_nil in Hin|].
      apply list_elem_of_singleton in Hin. discriminate Hin.
Qed.

(** X14: a validation request never throws, is answered unless the remote
    end stays silent, and costs at most one file read and one outbound
    call.  The handler leaves the ledger, the contacts, the Set of streams
    and the streams untouched; what it adds to the record of effects is
    nothing, or the read of the configured certificate path with the log of
    its failure, or that read followed by one call to the request's
    validation URL carrying the merchant payload and the certificate read,
    followed by at most one logged error.  It returns an answer in every
    case but one: when the request gets as far as the outbound call and
    that call, or the read of its answer's body, never settles, the handler
    stays suspended and the caller is sent nothing. *)
Theorem validation_answers_unless_silent `{R : Runtime} (w : world) (e : env)
    (req_body : option jsval) (s : server) :
  ∃ c effs,
    handle (validate_session w e req_body) s = (c, with_effects (λ l, l ++ effs) s)
    ∧ validation_effects w e req_body effs
    ∧ match c with
      | Normal _ => ¬ (goes_out e req_body ∧ never_settles w e req_body)
      | Throw _ => False
      | Suspended => goes_out e req_body ∧ never_settles w e req_body
      end.
Proof. apply validation_outcome. Qed.

(** With the merchant configured and a remote end that never answers, the
    handler stays suspended, one read and one call on record. *)
Lemma validation_answers_unless_silent_witness :
  ∃ s',
    handle (validate_session (world_answering Never) merchant_env session_request)
      no_traffic = (Suspended, s')
    ∧ length (effects s') = 2%nat
    ∧ never_settles (world_answering Never) merchant_env session_request.
Proof.
  destruct (validation_answers_unless_silent (world_answering Never) merchant_env
              session_request no_traffic) as (c & effs & Hrun & _ & Houtcome).
  assert (c = Suspended) as -> by (vm_compute in Hrun; by injection Hrun as <- _).
  eexists. split; [exact Hrun|]. split; [|by destruct Houtcome].
  vm_compute in Hrun. by injection Hrun as <-.
Defined.

(** X15: no outbound call without credentials.  If handling a validation
    request records an outbound call that was not on record before, then the
    feature flag is on, the request carries a truthy validation URL, all
    four merchant variables are set, and the call went to that URL with the
    merchant payload as body and with the certificate that was read from the
    configured path. *)
Theorem no_outbound_without_credentials `{R : Runtime} (w : world) (e : env)
    (req_body : option jsval) (s : server) (u : option jsval) (b c : string) :
  Outbound u b c ∈ effects (handle (validate_session w e req_body) s).2 →
  Outbound u b c ∉ effects s →
  APPLE_ENABLED e = true
  ∧ truthy (optional_get req_body "validationURL") = true
  ∧ config_missing e = false
  ∧ readFileSync w (the (MERCHANT_CERT_PATH e)) = Some c
  ∧ u = optional_get req_body "validationURL"
  ∧ b = JSON_stringify (merchant_payload e).
Proof.
  intros Hin Hnew.
  destruct (APPLE_ENABLED e) eqn:He.
  2: { rewrite validate_session_disabled in Hin by done. done. }
  destruct (truthy (optional_get req_body "validationURL")) eqn:Hu.
  2: { rewrite validate_session_no_url in Hin by done. done. }
  destruct (config_missing e) eqn:Hc.
  { rewrite validate_session_unconfigured in Hin by done. done. }
  destruct (validation_outcome w e req_body s) as (r & effs & Hrun & Heffs & _).
  rewrite Hrun in Hin. cbn in Hin. apply elem_of_app in Hin as [Hin|Hin]; [done|].
  by destruct (validation_outbound w e req_body effs u b c Heffs Hin) as (? & ? & ?).
Qed.

(** With the merchant configured and the remote end answering 200: the one
    call on record went to the request's URL with the certificate on disk. *)
Lemma no_outbound_without_credentials_witness :
  let up := {| up_status := 200; up_text := Fulfilled ok_true |} in
  let call := Outbound session_request_url (JSON_stringify (merchant_payload merchant_env))
                "PEM" in
  call ∈ effects (handle (validate_session (world_answering (Fulfilled up)) merchant_env
                            session_request) no_traffic).2
  ∧ APPLE_ENABLED merchant_env = true
  ∧ config_missing merchant_env = false.
Proof.
  intros up call.
  assert (call ∈ effects (handle (validate_session (world_answering (Fulfilled up))
                                    merchant_env session_request) no_traffic).2) as Hin.
  { assert (effects (handle (validate_session (world_answering (Fulfilled up))
                               merchant_env session_request) no_traffic).2
            = [ReadFile "/etc/sasa/merchant.pem"; call]) as ->
      by (vm_compute; reflexivity).
    apply elem_of_cons. right. apply elem_of_cons. by left. }
  split; [exact Hin|].
  destruct (no_outbound_without_credentials (world_answering (Fulfilled up)) merchant_env
              session_request no_traffic _ _ _ Hin) as (He & _ & Hc & _).
  - cbn. apply not_elem_of_nil.
  - split; [exact He|exact Hc].
Defined.

(** X16: a request that cannot be completed is answered with one fixed
    message, whatever went wrong.  With the feature on, a validation URL in
    the request and the merchant configured, the answer is 500 with the text
    "Validation request failed." in each of these cases: the certificate
    cannot be read (and then no outbound call is made); the outbound call
    rejects; the answer's body cannot be read; a success answer's body is
    not JSON.  The cause is kept out of the answer and is the last effect
    logged. *)
Theorem validation_failure_is_generic `{R : Runtime} (w : world) (e : env)
    (req_body : option jsval) (s : server) :
  APPLE_ENABLED e = true →
  truthy (optional_get req_body "validationURL") = true →
  config_missing e = false →
  let path := the (MERCHANT_CERT_PATH e) in
  let url := optional_get req_body "validationURL" in
  let body := JSON_stringify (merchant_payload e) in
  let failed (cause : exn) (called : list effect) :=
    handle (validate_session w e req_body) s
    = (Normal (res_status_json 500 (Error "Validation request failed.")),
       with_effects (λ l, l ++ [ReadFile path] ++ called ++ [ConsoleError cause]) s) in
  (readFileSync w path = None → failed (FileError path) [])
  ∧ ∀ cert,
      readFileSync w path = Some cert →
      (fetch w url body cert = Rejected → failed FetchError [Outbound url body cert])
      ∧ ∀ up,
          fetch w url body cert = Fulfilled up →
          (up_text up = Rejected → failed BodyError [Outbound url body cert])
          ∧ ∀ t,
              up_text up = Fulfilled t → ok up = true → JSON_parse t = None →
              failed SyntaxError [Outbound url body cert].
Proof.
  intros He Hu Hc path url body failed. unfold failed. split.
  - intros Hf. by apply validate_session_unreadable.
  - intros cert Hf. split.
    + intros Hup. by apply validate_session_unanswered.
    + intros up Hup.
      rewrite (validate_session_answered w e req_body s cert up) by done.
      split.
      * intros ->. reflexivity.
      * intros t -> -> ->. reflexivity.
Qed.

(** The certificate is not on disk: the fixed 500, one failed read, no call. *)
Lemma validation_failure_is_generic_witness :
  let e := {| APPLE_PAY_ENABLED := Some "true"; MERCHANT_ID := Some "merchant.org.sasa";
              MERCHANT_DOMAIN := Some "sasa.example"; MERCHANT_DISPLAY_NAME := Some "SASA";
              MERCHANT_CERT_PATH := Some "/nowhere.pem" |} in
  handle (validate_session healthy e session_request) no_traffic
  = (Normal (res_status_json 500 (Error "Validation request failed.")),
     with_effects (λ _, [ReadFile "/nowhere.pem"; ConsoleError (FileError "/nowhere.pem")])
       no_traffic).
Proof.
  intros e.
  destruct (validation_failure_is_generic healthy e session_request no_traffic)
    as [Hunreadable _]; [reflexivity..|].
  rewrite Hunreadable by reflexivity. reflexivity.
Defined.

(** X17: the caller is given 200 only on the remote end's success.  If the
    answer to a validation request has status 200, then the certificate was
    read, the outbound call was answered with a status in 200..299 and a
    body that parses as JSON, and the answer's body is that parsed value. *)
Theorem success_only_from_upstream `{R : Runtime} (w : world) (e : env)
    (req_body : option jsval) (s : server) (r : response) (s' : server) :
  handle (validate_session w e req_body) s = (Normal r, s') →
  status r = 200 →
  ∃ cert up t session,
    readFileSync w (the (MERCHANT_CERT_PATH e)) = Some cert
    ∧ fetch w (optional_get req_body "validationURL")
        (JSON_stringify (merchant_payload e)) cert = Fulfilled up
    ∧ ok up = true
    ∧ up_text up = Fulfilled t
    ∧ JSON_parse t = Some session
    ∧ payload r = Json session.
Proof.
  intros Hrun Hstatus.
  destruct (APPLE_ENABLED e) eqn:He.
  2: { rewrite validate_session_disabled in Hrun by done.
       injection Hrun as <- _. discriminate Hstatus. }
  destruct (truthy (optional_get req_body "validationURL")) eqn:Hu.
  2: { rewrite validate_session_no_url in Hrun by done.
       injection Hrun as <- _. discriminate Hstatus. }
  destruct (config_missing e) eqn:Hc.
  { rewrite validate_session_unconfigured in Hrun by done.
    injection Hrun as <- _. discriminate Hstatus. }
  destruct (readFileSync w (the (MERCHANT_CERT_PATH e))) as [cert|] eqn:Hf.
  2: { rewrite validate_session_unreadable in Hrun by done.
       injection Hrun as <- _. discriminate Hstatus. }
  destruct (validate_session_unanswered w e req_body s cert He Hu Hc Hf)
    as [Hrejected Hnever].
  destruct (fetch w (optional_get req_body "validationURL")
              (JSON_stringify (merchant_payload e)) cert) as [up| |] eqn:Hup.
  2: { rewrite Hrejected in Hrun by done.
       injection Hrun as <- _. discriminate Hstatus. }
  2: { rewrite Hnever in Hrun by done. discriminate Hrun. }
  rewrite (validate_session_answered w e req_body s cert up) in Hrun by done.
  destruct (up_text up) as [t| |] eqn:Ht.
  2: { injection Hrun as <- _. discriminate Hstatus. }
  2: { discriminate Hrun. }
  destruct (ok up) eqn:Hok.
  - destruct (JSON_parse t) as [session|] eqn:Hparse.
    + injection Hrun as <- _. by exists cert, up, t, session.
    + injection Hrun as <- _. discriminate Hstatus.
  - destruct ((100 <=? up_status up) && (up_status up <=? 999)).
    + injection Hrun as <- _. cbn in Hstatus. unfold ok in Hok. rewrite Hstatus in Hok.
      discriminate Hok.
    + injection Hrun as <- _. discriminate Hstatus.
Qed.

Lemma success_only_from_upstream_witness :
  let up := {| up_status := 200; up_text := Fulfilled ok_true |} in
  ∃ session,
    JSON_parse ok_true = Some session
    ∧ (handle (validate_session (world_answering (Fulfilled up)) merchant_env
                 session_request) no_traffic).1
      = Normal (res_json (Json session)).
Proof.
  intros up.
  destruct (handle (validate_session (world_answering (Fulfilled up)) merchant_env
                      session_request) no_traffic) as [c s'] eqn:Hrun.
  assert (c = Normal (res_json (Json (JObj [("ok", JBool true)])))) as ->.
  { vm_compute in Hrun. by injection Hrun as <- _. }
  destruct (success_only_from_upstream _ _ _ _ _ _ Hrun eq_refl)
    as (cert & up' & t & session & _ & Hup & _ & Ht & Hparse & Hpayload).
  injection Hup as <-. injection Ht as <-.
  exists session. split; [exact Hparse|]. cbn in Hpayload. by injection Hpayload as ->.
Defined.

(** * Properties of the gallery lightbox *)

Ltac displayed_here :=
  split; [vm_compute; reflexivity|];
  eexists; split; [vm_compute; reflexivity|];
  split; vm_compute; reflexivity.

Ltac run_page :=
  cbv beta iota zeta delta
    [mbind M_bind mret M_ret modify gets show current onPrev onNext closeLightbox
     open_lightbox run_listener onKey fst snd].

(** Up to 2^53 the sum is exact. *)
Lemma index_plus_exact (z n : Z) :
  Z.abs (z + n) ≤ two_53 → index_plus (At z) n = At (z + n).
Proof.
  intros Hsum. pose proof two_53_below_two_1024.
  unfold index_plus, index_of_integer, overflows.
  rewrite nearest_double_exact by done.
  by replace (two_1024 <=? Z.abs (z + n)) with false by (symmetry; apply Z.leb_gt; lia).
Qed.

Lemma show_in_range (set : list item) (i : Z) (p : page) :
  set ≠ [] →
  - Z.of_nat (length set) ≤ i →
  i + Z.of_nat (length set) ≤ two_53 →
  ∃ it,
    set !! Z.to_nat (i mod Z.of_nat (length set)) = Some it
    ∧ show set (At i) p
      = (Normal (),
         set_img_alt (title it)
           (set_img_src (url it)
              (set_lightboxIndex (At (i mod Z.of_nat (length set))) p))).
Proof.
  intros Hset Hi Hsafe.
  assert (0 < Z.of_nat (length set)) as Hlen by (destruct set; [done|simpl; lia]).
  pose proof (Z.mod_pos_bound i _ Hlen) as Hmod.
  destruct (lookup_lt_is_Some_2 set (Z.to_nat (i mod Z.of_nat (length set))))
    as [it Hit]; [lia|].
  exists it. split; [done|].
  run_page. rewrite index_plus_exact by lia.
  cbn [index_rem lightboxIndex set_lightboxIndex].
  replace (Z.of_nat (length set) =? 0) with false by (symmetry; apply Z.eqb_neq; lia).
  rewrite Z.rem_mod_nonneg by lia.
  replace (i + Z.of_nat (length set)) with (i + 1 * Z.of_nat (length set)) by lia.
  rewrite Z_mod_plus_full.
  assert (element set (At (i mod Z.of_nat (length set))) = Some it) as Helement.
  { cbn [element].
    replace (i mod Z.of_nat (length set) <? 0) with false
      by (symmetry; apply Z.ltb_ge; lia).
    exact Hit. }
  rewrite Helement. cbn [lightboxIndex set_img_src set_lightboxIndex].
  rewrite Helement. reflexivity.
Qed.

Lemma show_displays (set : list item) (i : Z) (p : page) :
  set ≠ [] →
  - Z.of_nat (length set) ≤ i →
  i + Z.of_nat (length set) ≤ two_53 →
  ∃ p',
    show set (At i) p = (Normal (), p')
    ∧ displayed set (i mod Z.of_nat (length set)) p'
    ∧ active p' = active p ∧ overflow p' = overflow p
    ∧ prev_onclick p' = prev_onclick p ∧ next_onclick p' = next_onclick p
    ∧ keydown_once p' = keydown_once p.
Proof.
  intros Hset Hi Hsafe.
  destruct (show_in_range set i p Hset Hi Hsafe) as (it & Hit & ->).
  eexists. split; [reflexivity|]. split; [|done].
  split; [done|]. by exists it.
Qed.

(** X18: opening the lightbox on a gallery that is not empty, at an integer
    start index not below minus its length and small enough for the sum of
    index and length to be exact (at most 2^53), shows the item at the start
    index modulo the length, marks the lightbox active, hides the page's
    overflow, installs the two click handlers and adds one more pending
    keydown listener to those already pending. *)
Theorem open_shows_start (items : list item) (start : Z) (p : page) :
  items ≠ [] →
  - Z.of_nat (length items) ≤ start →
  start + Z.of_nat (length items) ≤ two_53 →
  ∃ p',
    open_lightbox items (At start) p = (Normal (), p')
    ∧ displayed items (start mod Z.of_nat (length items)) p'
    ∧ active p' = true
    ∧ overflow p' = "hidden"
    ∧ prev_onclick p' = Some items
    ∧ next_onclick p' = Some items
    ∧ keydown_once p' = keydown_once p ++ [items].
Proof.
  intros Hitems Hstart Hsafe.
  destruct (show_in_range items start (set_lightboxIndex (At start) p)
              Hitems Hstart Hsafe) as (it & Hit & Hshow).
  eexists. split.
  - unfold open_lightbox. unfold mbind at 1, M_bind at 1. cbn [modify].
    unfold mbind at 1, M_bind at 1. cbn [gets lightboxIndex set_lightboxIndex].
    unfold mbind at 1, M_bind at 1. rewrite Hshow. reflexivity.
  - cbn. repeat split; try done. by exists it.
Qed.

Lemma open_shows_start_witness :
  ∃ p',
    open_lightbox gallery (At 4) blank_page = (Normal (), p')
    ∧ lightboxIndex p' = At 1 ∧ img_src p' = "img/holi.jpg" ∧ active p' = true.
Proof.
  destruct (open_shows_start gallery 4 blank_page)
    as (p' & Hrun & (Hindex & it & Hit & Hsrc & _) & Hactive & _);
    [discriminate|simpl; lia|vm_compute; discriminate|].
  exists p'. split; [exact Hrun|]. split; [exact Hindex|].
  injection Hit as <-. split; [exact Hsrc|exact Hactive].
Defined.

(** Beyond that range the sum is rounded: at the start index 2^53 the three
    items are taken for 2^53 + 4, and it is the first one that shows, not the
    one at 2^53 modulo 3. *)
Example open_beyond_exact_sums :
  9007199254740992 mod 3 = 2
  ∧ ∃ p',
      open_lightbox gallery (At 9007199254740992) blank_page = (Normal (), p')
      ∧ lightboxIndex p' = At 0
      ∧ img_src p' = "img/diwali.jpg".
Proof.
  split; [reflexivity|]. eexists. split; [vm_compute; reflexivity|].
  split; reflexivity.
Qed.

(** X19: opening the lightbox on an empty gallery, or at a start index that
    is NaN, throws a TypeError after the index has been assigned and before
    anything else: the index is NaN, the image is the one shown before, the
    lightbox is not made active, the overflow is not hidden, and no handler
    or listener is installed. *)
Theorem open_off_the_gallery (items : list item) (start : index) (p : page) :
  items = [] ∨ start = NotANumber →
  open_lightbox items start p = (Throw TypeError, set_lightboxIndex NotANumber p).
Proof.
  intros Hoff. run_page. cbn [lightboxIndex set_lightboxIndex].
  assert (index_rem (index_plus start (Z.of_nat (length items)))
            (Z.of_nat (length items)) = NotANumber) as ->.
  { destruct Hoff as [->| ->]; [|done].
    destruct start as [z| |]; [|done..].
    unfold index_plus, index_of_integer. by destruct (overflows _). }
  reflexivity.
Qed.

Lemma open_off_the_gallery_witness :
  open_lightbox [] (At 0) blank_page = (Throw TypeError, set_lightboxIndex NotANumber blank_page).
Proof. apply open_off_the_gallery. by left. Defined.

Lemma click_next_displays (set : list item) (z : Z) (p : page) :
  next_onclick p = Some set →
  displayed set z p →
  0 ≤ z < Z.of_nat (length set) →
  Z.of_nat (length set) ≤ max_array_length →
  displayed set ((z + 1) mod Z.of_nat (length set)) (dispatch ClickNext p)
  ∧ next_onclick (dispatch ClickNext p) = Some set
  ∧ prev_onclick (dispatch ClickNext p) = prev_onclick p
  ∧ active (dispatch ClickNext p) = active p
  ∧ keydown_once (dispatch ClickNext p) = keydown_once p.
Proof.
  intros Hnext [Hindex _] Hz Hlen. unfold max_array_length, two_53 in *.
  destruct (show_displays set (z + 1) p) as (p' & Hrun & Hshown & Ha & _ & Hp & Hn & Hk);
    [by intros ->; simpl in Hz; lia|lia|unfold two_53; lia|].
  assert (dispatch ClickNext p = p') as ->.
  { cbn [dispatch]. rewrite Hnext. unfold run_listener, onNext, mbind, M_bind.
    cbn [gets]. rewrite Hindex, index_plus_exact by (unfold two_53; lia).
    by rewrite Hrun. }
  rewrite Hn, Hp, Ha, Hk. done.
Qed.

Lemma click_prev_displays (set : list item) (z : Z) (p : page) :
  prev_onclick p = Some set →
  displayed set z p →
  0 ≤ z < Z.of_nat (length set) →
  Z.of_nat (length set) ≤ max_array_length →
  displayed set ((z - 1) mod Z.of_nat (length set)) (dispatch ClickPrev p)
  ∧ next_onclick (dispatch ClickPrev p) = next_onclick p
  ∧ prev_onclick (dispatch ClickPrev p) = Some set
  ∧ active (dispatch ClickPrev p) = active p
  ∧ keydown_once (dispatch ClickPrev p) = keydown_once p.
Proof.
  intros Hprev [Hindex _] Hz Hlen. unfold max_array_length, two_53 in *.
  destruct (show_displays set (z + -1) p) as (p' & Hrun & Hshown & Ha & _ & Hp & Hn & Hk);
    [by intros ->; simpl in Hz; lia|lia|unfold two_53; lia|].
  assert (dispatch ClickPrev p = p') as ->.
  { cbn [dispatch]. rewrite Hprev. unfold run_listener, onPrev, mbind, M_bind.
    cbn [gets]. rewrite Hindex, index_plus_exact by (unfold two_53; lia).
    by rewrite Hrun. }
  rewrite Hn, Hp, Ha, Hk. done.
Qed.

(** X20: the next button walks the gallery in a cycle.  From a page that
    shows the item at an index within the gallery, an array as the language
    has them (fewer than 2^32 elements), [k] clicks on next show the item
    at that index plus [k], modulo the length; so the last item is followed
    by the first, and as many clicks as there are items lead back to the
    item shown at the start. *)
Theorem next_walks_in_a_cycle (set : list item) (z : Z) (k : nat) (p : page) :
  next_onclick p = Some set →
  displayed set z p →
  0 ≤ z < Z.of_nat (length set) →
  Z.of_nat (length set) ≤ max_array_length →
  displayed set ((z + Z.of_nat k) mod Z.of_nat (length set))
    (Nat.iter k (dispatch ClickNext) p)
  ∧ (k = length set → displayed set z (Nat.iter k (dispatch ClickNext) p)).
Proof.
  intros Hnext Hshown Hz Hlen.
  assert (displayed set ((z + Z.of_nat k) mod Z.of_nat (length set))
            (Nat.iter k (dispatch ClickNext) p)
          ∧ next_onclick (Nat.iter k (dispatch ClickNext) p) = Some set) as [Hk _].
  { induction k as [|k [IHshown IHnext]].
    - simpl. rewrite Z.add_0_r, Z.mod_small by lia. done.
    - cbn [Nat.iter nat_rect].
      destruct (click_next_displays set ((z + Z.of_nat k) mod Z.of_nat (length set))
                  (Nat.iter k (dispatch ClickNext) p) IHnext IHshown)
        as (H1 & H2 & _); [apply Z.mod_pos_bound; lia|done|].
      split; [|done].
      replace ((z + Z.of_nat (S k)) mod Z.of_nat (length set))
        with (((z + Z.of_nat k) mod Z.of_nat (length set) + 1) mod Z.of_nat (length set));
        [done|].
      rewrite Zplus_mod_idemp_l. f_equal. lia. }
  split; [done|]. intros ->.
  replace (z + Z.of_nat (length set)) with (z + 1 * Z.of_nat (length set)) in Hk by lia.
  by rewrite Z_mod_plus_full, Z.mod_small in Hk by lia.
Qed.

Lemma next_walks_in_a_cycle_witness :
  let p := (open_lightbox gallery (At 2) blank_page).2 in
  lightboxIndex p = At 2
  ∧ displayed gallery 0 (Nat.iter 1 (dispatch ClickNext) p)
  ∧ displayed gallery 2 (Nat.iter 3 (dispatch ClickNext) p).
Proof.
  intros p. split; [vm_compute; reflexivity|].
  assert (next_onclick p = Some gallery) as Hnext by (vm_compute; reflexivity).
  assert (displayed gallery 2 p) as Hshown by displayed_here.
  assert (0 ≤ 2 < Z.of_nat (length gallery)) as Hin by (simpl; lia).
  assert (Z.of_nat (length gallery) ≤ max_array_length) as Hlen
    by (vm_compute; discriminate).
  split.
  - exact (proj1 (next_walks_in_a_cycle gallery 2 1 p Hnext Hshown Hin Hlen)).
  - exact (proj2 (next_walks_in_a_cycle gallery 2 3 p Hnext Hshown Hin Hlen) eq_refl).
Defined.

(** X21: previous undoes next, and next undoes previous.  From a page that
    shows the item at an index within the gallery, an array as the language
    has them (fewer than 2^32 elements), with both click handlers installed
    for that gallery, a click on next followed by a click on previous shows
    the same item again, and so does a click on previous followed by a click
    on next, also at the two ends of the gallery. *)
Theorem next_and_prev_are_inverse (set : list item) (z : Z) (p : page) :
  next_onclick p = Some set →
  prev_onclick p = Some set →
  displayed set z p →
  0 ≤ z < Z.of_nat (length set) →
  Z.of_nat (length set) ≤ max_array_length →
  displayed set z (dispatch ClickPrev (dispatch ClickNext p))
  ∧ displayed set z (dispatch ClickNext (dispatch ClickPrev p)).
Proof.
  intros Hnext Hprev Hshown Hz Harray.
  assert (0 < Z.of_nat (length set)) as Hlen by lia.
  split.
  - destruct (click_next_displays set z p Hnext Hshown Hz Harray) as (H1 & _ & H2 & _).
    rewrite Hprev in H2.
    destruct (click_prev_displays set _ _ H2 H1) as (H3 & _);
      [by apply Z.mod_pos_bound|done|].
    replace (((z + 1) mod Z.of_nat (length set) - 1) mod Z.of_nat (length set))
      with z in H3; [done|].
    rewrite Zminus_mod_idemp_l. replace (z + 1 - 1) with z by lia.
    by rewrite Z.mod_small.
  - destruct (click_prev_displays set z p Hprev Hshown Hz Harray) as (H1 & H2 & _).
    rewrite Hnext in H2.
    destruct (click_next_displays set _ _ H2 H1) as (H3 & _);
      [by apply Z.mod_pos_bound|done|].
    replace (((z - 1) mod Z.of_nat (length set) + 1) mod Z.of_nat (length set))
      with z in H3; [done|].
    rewrite Zplus_mod_idemp_l. replace (z - 1 + 1) with z by lia.
    by rewrite Z.mod_small.
Qed.

Lemma next_and_prev_are_inverse_witness :
  let p := (open_lightbox gallery (At 0) blank_page).2 in
  lightboxIndex (dispatch ClickPrev p) = At 2
  ∧ displayed gallery 0 (dispatch ClickNext (dispatch ClickPrev p)).
Proof.
  intros p. split; [vm_compute; reflexivity|].
  destruct (next_and_prev_are_inverse gallery 0 p) as [_ Hshown].
  - vm_compute; reflexivity.
  - vm_compute; reflexivity.
  - displayed_here.
  - simpl. lia.
  - vm_compute. discriminate.
  - exact Hshown.
Defined.

Lemma show_keeps_listeners (set : list item) (i : index) (p : page) :
  keydown_once (show set i p).2 = keydown_once p.
Proof.
  run_page. cbn [lightboxIndex set_lightboxIndex set_img_src].
  destruct (element set _) as [it|] eqn:Helement; [|reflexivity].
  cbn [lightboxIndex set_lightboxIndex set_img_src]. rewrite Helement. reflexivity.
Qed.

Lemma onKey_keeps_listeners (set : list item) (key : string) (p : page) :
  keydown_once (run_listener (onKey set key) p) = keydown_once p.
Proof.
  unfold run_listener, onKey, onPrev, onNext, closeLightbox, mbind, M_bind, mret, M_ret,
    modify, gets.
  destruct (String.eqb key "Escape"), (String.eqb key "ArrowLeft"),
    (String.eqb key "ArrowRight"); cbn [fst snd];
    repeat match goal with
      | |- context [show ?s ?i ?q] =>
          let H := fresh in
          pose proof (show_keeps_listeners s i q) as H;
          destruct (show s i q) as [[[]|?|] ?]; cbn [fst snd] in H |- *
      end;
    simpl in *; congruence.
Qed.

Lemma keydown_listeners_stay_removed (key : string) (sets : list (list item)) (p : page) :
  keydown_once (foldl (λ q set, run_listener (onKey set key) q) p sets) = keydown_once p.
Proof.
  revert p. induction sets as [|set sets IH]; intros p; [done|].
  cbn [foldl]. by rewrite IH, onKey_keeps_listeners.
Qed.

(** X22: a key listener of the lightbox runs for one key press only.  After
    any key press, whichever key it was, no key listener is pending, and
    every further key press leaves the page as it is: the arrow keys and
    Escape act for at most one key press after an opening. *)
Theorem key_listener_fires_once (p : page) (first later : string) :
  keydown_once (dispatch (KeyDown first) p) = []
  ∧ dispatch (KeyDown later) (dispatch (KeyDown first) p)
    = dispatch (KeyDown first) p.
Proof.
  assert (keydown_once (dispatch (KeyDown first) p) = []) as Hnone.
  { cbn [dispatch]. by rewrite keydown_listeners_stay_removed. }
  split; [done|].
  destruct (dispatch (KeyDown first) p) as [i src alt a o pr ne kd].
  cbn in Hnone. subst kd. reflexivity.
Qed.

Lemma onNext_displays (set : list item) (z : Z) (p : page) :
  displayed set z p →
  0 ≤ z < Z.of_nat (length set) →
  Z.of_nat (length set) ≤ max_array_length →
  displayed set ((z + 1) mod Z.of_nat (length set)) (run_listener (onNext set) p).
Proof.
  intros [Hindex _] Hz Hlen. unfold max_array_length in Hlen.
  destruct (show_displays set (z + 1) p) as (p' & Hrun & Hshown & _);
    [by intros ->; simpl in Hz; lia|lia|unfold two_53; lia|].
  unfold run_listener, onNext, mbind, M_bind. cbn [gets].
  rewrite Hindex, index_plus_exact by (unfold two_53; lia). by rewrite Hrun.
Qed.

Lemma arrow_right_runs_onNext (set : list item) (p : page) :
  run_listener (onKey set "ArrowRight") p = run_listener (onNext set) p.
Proof.
  unfold run_listener, onKey.
  change (String.eqb "ArrowRight" "Escape") with false.
  change (String.eqb "ArrowRight" "ArrowLeft") with false.
  change (String.eqb "ArrowRight" "ArrowRight") with true.
  unfold mbind, M_bind, mret, M_ret. cbn [fst snd].
  by destruct (onNext set p) as [[[]|?|] ?].
Qed.

(** X23: closing the lightbox does not withdraw its key listener, so the
    listeners of earlier openings add up.  On a page that shows the item at
    an index within the gallery, an array as the language has them (fewer
    than 2^32 elements), and has [n] key listeners pending for that gallery,
    one press of ArrowRight moves forward by [n] items, not by one, and
    leaves no key listener pending. *)
Theorem arrow_key_steps_once_per_listener
    (items : list item) (z : Z) (n : nat) (p : page) :
  keydown_once p = replicate n items →
  displayed items z p →
  0 ≤ z < Z.of_nat (length items) →
  Z.of_nat (length items) ≤ max_array_length →
  displayed items ((z + Z.of_nat n) mod Z.of_nat (length items))
    (dispatch (KeyDown "ArrowRight") p)
  ∧ keydown_once (dispatch (KeyDown "ArrowRight") p) = [].
Proof.
  intros Hpending Hshown Hz Hlen. split.
  - cbn [dispatch]. rewrite Hpending.
    assert (displayed items z (set_keydown_once [] p)) as Hstart by exact Hshown.
    generalize dependent (set_keydown_once [] p). clear Hpending Hshown.
    revert z Hz. induction n as [|n IH]; intros z Hz q Hq.
    + simpl. by rewrite Z.add_0_r, Z.mod_small.
    + cbn [replicate foldl]. rewrite arrow_right_runs_onNext.
      replace ((z + Z.of_nat (S n)) mod Z.of_nat (length items))
        with (((z + 1) mod Z.of_nat (length items) + Z.of_nat n)
                mod Z.of_nat (length items))
        by (rewrite Zplus_mod_idemp_l; f_equal; lia).
      apply IH; [apply Z.mod_pos_bound; lia|].
      by apply onNext_displays.
  - cbn [dispatch]. by rewrite keydown_listeners_stay_removed.
Qed.

Lemma arrow_key_steps_once_per_listener_witness :
  let opened := (open_lightbox gallery (At 0) blank_page).2 in
  let reopened := (open_lightbox gallery (At 0) (dispatch ClickClose opened)).2 in
  lightboxIndex reopened = At 0
  ∧ displayed gallery 2 (dispatch (KeyDown "ArrowRight") reopened).
Proof.
  intros opened reopened. split; [vm_compute; reflexivity|].
  destruct (arrow_key_steps_once_per_listener gallery 0 2 reopened) as [Hshown _].
  - vm_compute; reflexivity.
  - displayed_here.
  - simpl. lia.
  - vm_compute. discriminate.
  - change ((0 + Z.of_nat 2) mod Z.of_nat (length gallery)) with 2 in Hshown.
    exact Hshown.
Defined.

(** * Properties of the focus outline *)

Lemma focus_after_app (c : bool) (before after : list input) :
  focus_after c (before ++ after) = foldl focus_step (focus_after c before) after.
Proof. unfold focus_after. by rewrite foldl_app. Qed.

Lemma focus_without_tab (f : focus) (inputs : list input) :
  Forall (λ i, is_Tab i = false) inputs →
  mousedown_once f = negb (using_mouse f) →
  using_mouse (foldl focus_step f inputs)
  = using_mouse f || existsb is_MouseDown inputs.
Proof.
  intros Hno. revert f. induction Hno as [|i inputs Hi _ IH]; intros f Hf.
  - simpl. by rewrite orb_false_r.
  - cbn [foldl existsb]. destruct i as [key|].
    + cbn [focus_step is_Tab is_MouseDown] in *. unfold handleKeyDown.
      rewrite Hi. by rewrite IH.
    + cbn [focus_step is_MouseDown]. destruct f as [[] once]; simpl in Hf; subst once;
        cbn [mousedown_once negb]; rewrite IH by done; simpl; by rewrite ?orb_true_r.
Qed.

(** X24: before the first press of Tab the focus code changes nothing.
    For every sequence of inputs holding no Tab key press, whatever mouse
    presses and other keys it holds, the body has the class using-mouse
    exactly when it had it at load, and no mousedown listener is
    registered. *)
Theorem mouse_before_any_tab_is_ignored (class_at_load : bool) (inputs : list input) :
  Forall (λ i, is_Tab i = false) inputs →
  focus_after class_at_load inputs
  = {| using_mouse := class_at_load; mousedown_once := false |}.
Proof.
  unfold focus_after. intros Hno. revert class_at_load.
  induction Hno as [|i inputs Hi _ IH]; intros c; [done|].
  cbn [foldl]. destruct i as [key|].
  - cbn [focus_step is_Tab] in *. unfold handleKeyDown. rewrite Hi. apply IH.
  - cbn [focus_step mousedown_once]. apply IH.
Qed.

Lemma mouse_before_any_tab_is_ignored_witness :
  using_mouse (focus_after false [MouseDown; Key "a"; MouseDown]) = false.
Proof.
  rewrite (mouse_before_any_tab_is_ignored false [MouseDown; Key "a"; MouseDown]);
    [reflexivity|].
  repeat constructor.
Defined.

(** X25: once Tab has been pressed, the class using-mouse tells whether the
    mouse was pressed since the last press of Tab.  For every sequence of
    inputs whose last Tab key press is followed by the inputs [after], the
    body has the class using-mouse exactly when [after] holds a mouse
    press, whatever came before that Tab and whatever the class was at
    load. *)
Theorem outline_follows_last_tab
    (class_at_load : bool) (before after : list input) (key : string) :
  is_Tab (Key key) = true →
  Forall (λ i, is_Tab i = false) after →
  using_mouse (focus_after class_at_load (before ++ Key key :: after))
  = existsb is_MouseDown after.
Proof.
  intros Htab Hafter. rewrite focus_after_app. cbn [foldl focus_step].
  unfold handleKeyDown. cbn [is_Tab] in Htab. rewrite Htab.
  by rewrite focus_without_tab.
Qed.

Lemma outline_follows_last_tab_witness :
  using_mouse (focus_after false [MouseDown; Key "Tab"; Key "Enter"; MouseDown; MouseDown])
  = true
  ∧ using_mouse (focus_after true [MouseDown; Key "Tab"; Key "Enter"]) = false.
Proof.
  split.
  - refine (outline_follows_last_tab false [MouseDown]
              [Key "Enter"; MouseDown; MouseDown] "Tab" eq_refl _).
    repeat constructor.
  - refine (outline_follows_last_tab true [MouseDown] [Key "Enter"] "Tab" eq_refl _).
    repeat constructor.
Defined.
